(** * tui.code-snippet: the HashMap container of [src/hashMap.js]

    A shallow embedding of [tui.util.HashMap] and the proofs of its
    specification.  A JavaScript object is the ordered list of its own
    properties, objects live in a heap addressed by references, and every
    method is a computation in a state-and-error monad over that heap, so
    that two references to one object alias as they do in the source. *)

From Stdlib Require Import ZArith Lia.
From stdpp Require Import base option list.

Set Default Proof Using "Type".
Open Scope Z_scope.
Open Scope list_scope.

(** ** Strings

    A JavaScript string is a sequence of UTF-16 code units. *)

Definition jschar := N.
Definition jsstring := list jschar.

(** The code units of the ASCII letters used for property names. *)
Definition str_length : jsstring := [108; 101; 110; 103; 116; 104]%N.

(** [var _MAPDATAPREFIX = 'å';] is the one code unit U+00E5. *)
Definition _MAPDATAPREFIX_unit : jschar := 229%N.
Definition _MAPDATAPREFIX : jsstring := [_MAPDATAPREFIX_unit].

(** [s.split(sep)] for a separator of one code unit: the segments between
    the occurrences of [sep], in order; [n] occurrences give [n + 1]
    segments, so the result is never empty. *)
Fixpoint split (sep : jschar) (s : jsstring) : list jsstring :=
  match s with
  | [] => [[]]
  | c :: s' =>
      if N.eqb c sep then [] :: split sep s'
      else match split sep s' with
           | seg :: segs => (c :: seg) :: segs
           | [] => [[c]]
           end
  end.

(** [s.charAt(0) === _MAPDATAPREFIX]: [charAt(0)] is the empty string on
    the empty string and the string of the first code unit otherwise. *)
Definition charAt0 (s : jsstring) : jsstring :=
  match s with
  | [] => []
  | c :: _ => [c]
  end.

Definition str_eqb (a b : jsstring) : bool := bool_decide (a = b).

(** [HashMap.prototype.encodeKey] *)
Definition encodeKey (key : jsstring) : jsstring := _MAPDATAPREFIX ++ key.

(** [HashMap.prototype.decodeKey]: [decodedKey[decodedKey.length-1]] of the
    split; the array is never empty, so the index is always in range. *)
Definition decodeKey (key : jsstring) : jsstring :=
  let decodedKey := split _MAPDATAPREFIX_unit key in
  List.last decodedKey [].

(** The specification's wording of decoding, stated on its own: the text
    after the last occurrence of the prefix character, the whole string
    when there is none. *)
Fixpoint spec_last_segment (s : jsstring) : jsstring :=
  match s with
  | [] => []
  | c :: s' =>
      if bool_decide (_MAPDATAPREFIX_unit ∈ s') then spec_last_segment s'
      else if N.eqb c _MAPDATAPREFIX_unit then s'
      else s
  end.

(** Joining segments with the separator, the inverse of [split]. *)
Fixpoint join (sep : jschar) (segs : list jsstring) : jsstring :=
  match segs with
  | [] => []
  | [seg] => seg
  | seg :: segs' => seg ++ sep :: join sep segs'
  end.

(** ** Values, objects and the heap *)

(** References are indices into the heap. *)
Abbreviation loc := nat.

(** The values a store can hold.  They are payloads: the container only
    compares them with [null] and returns them. *)
Inductive value :=
  | VUndefined
  | VNull
  | VBool (b : bool)
  | VNum (n : Z)
  | VStr (s : jsstring)
  | VRef (l : loc).

(** An object is the list of its own enumerable properties in the order
    [for (key in obj)] enumerates them.  For a store that is the order of
    creation, since none of its property names is an array index; a record
    handed to [setObject] is given in its order of enumeration. *)
Definition obj := list (jsstring * value).
Abbreviation heap := (list obj).

Fixpoint obj_lookup (o : obj) (name : jsstring) : option value :=
  match o with
  | [] => None
  | (name', v) :: o' => if str_eqb name' name then Some v else obj_lookup o' name
  end.

(** [o[name] = v]: an existing property keeps its place, a new one goes last. *)
Fixpoint obj_set (o : obj) (name : jsstring) (v : value) : obj :=
  match o with
  | [] => [(name, v)]
  | (name', v') :: o' =>
      if str_eqb name' name then (name', v) :: o'
      else (name', v') :: obj_set o' name v
  end.

(** [delete o[name]] *)
Fixpoint obj_delete (o : obj) (name : jsstring) : obj :=
  match o with
  | [] => []
  | (name', v') :: o' =>
      if str_eqb name' name then o' else (name', v') :: obj_delete o' name
  end.

(** ** The monad of method bodies: heap state, and [None] for a step that
    leaves the modelled fragment (a dangling reference, arithmetic on a
    [length] that is not a number). *)

Definition M (A : Type) : Type := heap → option (A * heap).

Definition ret {A} (a : A) : M A := λ h, Some (a, h).

Definition bind {A B} (m : M A) (f : A → M B) : M B :=
  λ h, match m h with
       | Some (a, h') => f a h'
       | None => None
       end.

Definition fail {A} : M A := λ _, None.

Notation "'let*' x ':=' m 'in' k" := (bind m (λ x, k))
  (at level 10, x pattern, m at level 100, k at level 200, only parsing).

Definition deref (l : loc) : M obj :=
  λ h, match h !! l with
       | Some o => Some (o, h)
       | None => None
       end.

Definition update (l : loc) (f : obj → obj) : M unit :=
  let* o := deref l in λ h, Some (tt, <[l := f o]> h).

(** [{}]: a new object, at a fresh reference. *)
Definition alloc (o : obj) : M loc := λ h, Some (length h, h ++ [o]).

(** [this[name]].  A read that misses the own properties goes on to the
    prototype chain; every name read here starts with the prefix
    character or is [length], and no member of [HashMap.prototype] or
    [Object.prototype] is named so: a miss is [undefined]. *)
Definition get_prop (this : loc) (name : jsstring) : M value :=
  let* o := deref this in ret (default VUndefined (obj_lookup o name)).

Definition put_prop (this : loc) (name : jsstring) (v : value) : M unit :=
  update this (λ o, obj_set o name v).

Definition delete_prop (this : loc) (name : jsstring) : M unit :=
  update this (λ o, obj_delete o name).

Definition hasOwnProperty (this : loc) (name : jsstring) : M bool :=
  let* o := deref this in ret (bool_decide (is_Some (obj_lookup o name))).

(** [v + d] and [v - d] on the number [length]; counts stay far below
    2^53, where the arithmetic of doubles is exact on integers. *)
Definition num_add (v : value) (d : Z) : M value :=
  match v with
  | VNum n => ret (VNum (n + d))
  | _ => fail
  end.

(** [r === false] *)
Definition strict_false (r : value) : bool :=
  match r with
  | VBool false => true
  | _ => false
  end.

(** [data !== null] *)
Definition not_null (data : value) : bool :=
  match data with
  | VNull => false
  | _ => true
  end.

(** ** The collection helpers of [collection.js] *)

(** The loop [for (key in obj)] over the names enumerated when it starts:
    a property deleted before its turn is not visited, one added during
    the loop is not visited either (the language leaves the latter open;
    this is what engines do).  [L] holds the local variables the callback
    closes over. *)
Fixpoint forIn {L} (obj : loc) (iteratee : value → jsstring → L → M (value * L))
    (names : list jsstring) (l : L) : M L :=
  match names with
  | [] => ret l
  | key :: names' =>
      let* o := deref obj in
      match obj_lookup o key with
      | None => forIn obj iteratee names' l
      | Some v =>
          let* (r, l') := iteratee v key l in
          if strict_false r then ret l' else forIn obj iteratee names' l'
      end
  end.

(** Modelled from the spec: [tui.util.forEachOwnProperties] of
    [collection.js], the specification's [forEachOwnKey(record, fn)]:
    enumerate the own string keys of a record, invoking [fn(value, key)],
    and stop when [fn] returns [false]. *)
Definition forEachOwnProperties {L} (obj : loc)
    (iteratee : value → jsstring → L → M (value * L)) (l : L) : M L :=
  let* o := deref obj in forIn obj iteratee (o.*1) l.

(** Modelled from the spec: [tui.util.forEach] of [collection.js] on an
    array: the elements in index order, stopping when the callback returns
    [false]. *)
Fixpoint forEach {A L} (arr : list A) (iteratee : A → L → M (value * L)) (l : L)
    : M L :=
  match arr with
  | [] => ret l
  | x :: arr' =>
      let* (r, l') := iteratee x l in
      if strict_false r then ret l' else forEach arr' iteratee l'
  end.

(** ** The methods of [HashMap] *)

(** [HashMap.prototype.encodeKey] and [decodeKey] are above.  A method is
    found on the prototype: the own properties of a store are [length]
    and names that start with the prefix character, so none shadows it. *)

(** [HashMap.prototype.has] *)
Definition has (this : loc) (key : jsstring) : M bool :=
  hasOwnProperty this (encodeKey key).

(** [HashMap.prototype.get] *)
Definition get (this : loc) (key : jsstring) : M value :=
  get_prop this (encodeKey key).

(** [HashMap.prototype.setKeyValue] *)
Definition setKeyValue (this : loc) (key : jsstring) (v : value) : M unit :=
  let* present := has this key in
  let* _ := (if negb present then
          let* n := get_prop this str_length in
          let* n' := num_add n 1 in
          put_prop this str_length n'
        else ret tt) in
  put_prop this (encodeKey key) v.

(** [HashMap.prototype.setObject] *)
Definition setObject (this : loc) (obj : loc) : M unit :=
  forEachOwnProperties obj
    (λ v key (_ : unit), let* _ := setKeyValue this key v in ret (VUndefined, tt)) tt.

(** The two call shapes of [set]: [arguments.length === 2] or not. *)
Inductive set_arguments :=
  | SetKeyValue (key : jsstring) (v : value)
  | SetObject (obj : loc).

(** [HashMap.prototype.set] *)
Definition set (this : loc) (arguments : set_arguments) : M unit :=
  match arguments with
  | SetKeyValue key v => setKeyValue this key v
  | SetObject obj => setObject this obj
  end.

(** [HashMap.prototype.each]; [flag] is the local variable of [each] that
    the callback of [forEachOwnProperties] assigns. *)
Definition each {L} (this : loc)
    (iteratee : value → jsstring → L → M (value * L)) (l : L) : M L :=
  let* (_, l') := forEachOwnProperties this
      (λ v key '(flag, l),
         let* (flag, l) := (if str_eqb (charAt0 key) _MAPDATAPREFIX
                         then iteratee v (decodeKey key) l
                         else ret (flag, l)) in
         if strict_false flag then ret (flag, (flag, l))
         else ret (VUndefined, (flag, l)))
      (VUndefined, l) in
  ret l'.

(** [HashMap.prototype.merge] *)
Definition merge (this : loc) (hashMap : loc) : M unit :=
  each hashMap
    (λ v key (_ : unit), let* _ := setKeyValue this key v in ret (VUndefined, tt)) tt.

(** [HashMap.prototype.removeByKey] *)
Definition removeByKey (this : loc) (key : jsstring) : M value :=
  let* present := has this key in
  let* data := (if present then get this key else ret VNull) in
  let* _ := (if not_null data then
          let* _ := delete_prop this (encodeKey key) in
          let* n := get_prop this str_length in
          let* n' := num_add n (-1) in
          put_prop this str_length n'
        else ret tt) in
  ret data.

(** [HashMap.prototype.removeByKeyArray] *)
Definition removeByKeyArray (this : loc) (keyArray : list jsstring)
    : M (list value) :=
  forEach keyArray
    (λ key data, let* d := removeByKey this key in ret (VUndefined, data ++ [d])) [].

(** The call shapes of [remove]: one string, several strings (then
    [arguments.length > 1] and [tui.util.toArray(arguments)] is the array
    of them), one array ([tui.util.isArray(key)]). *)
Inductive remove_arguments :=
  | RemoveKey (key : jsstring)
  | RemoveKeys (key key2 : jsstring) (more : list jsstring)
  | RemoveArray (keyArray : list jsstring).

Inductive removed :=
  | Removed (data : value)
  | RemovedArray (data : list value).

(** [HashMap.prototype.remove] *)
Definition remove (this : loc) (arguments : remove_arguments) : M removed :=
  match arguments with
  | RemoveKey key => let* data := removeByKey this key in ret (Removed data)
  | RemoveKeys key key2 more =>
      let* data := removeByKeyArray this (key :: key2 :: more) in ret (RemovedArray data)
  | RemoveArray keyArray =>
      let* data := removeByKeyArray this keyArray in ret (RemovedArray data)
  end.

(** [HashMap.prototype.removeAll] *)
Definition removeAll (this : loc) : M unit :=
  each this
    (λ v key (_ : unit), let* _ := remove this (RemoveKey key) in ret (VUndefined, tt)) tt.

(** [HashMap.prototype.keys] *)
Definition keys (this : loc) : M (list jsstring) :=
  each this (λ v key keys, ret (VUndefined, keys ++ [decodeKey key])) [].

(** [HashMap.prototype.toArray] *)
Definition toArray (this : loc) : M (list value) :=
  each this (λ v key result, ret (VUndefined, result ++ [v])) [].

(** [function HashMap(obj)]; [obj] is optional. *)
Definition HashMap (obj : option loc) : M loc :=
  let* this := alloc [] in
  let* _ := put_prop this str_length (VNum 0) in
  let* _ := match obj with
       | Some obj => setObject this obj
       | None => ret tt
       end in
  ret this.

(** [this.length], the size of a store. *)
Definition size (this : loc) : M value := get_prop this str_length.

(** ** The view of a store that the specification talks about *)

(** [key.charAt(0) === _MAPDATAPREFIX], the test of [each]. *)
Definition is_data (name : jsstring) : bool :=
  str_eqb (charAt0 name) _MAPDATAPREFIX.

(** The user key of an own property name: what follows the prefix. *)
Definition user_key (name : jsstring) : option jsstring :=
  match name with
  | c :: key => if N.eqb c _MAPDATAPREFIX_unit then Some key else None
  | [] => None
  end.

(** The entries of a store object under their user keys, in enumeration
    order; the bookkeeping field is left out. *)
Definition entries (o : obj) : obj :=
  omap (λ p, (λ key, (key, p.2)) <$> user_key p.1) o.

(** A store object: own properties are distinct (it is an object) and
    [length] counts the entries. *)
Definition wf_store (o : obj) : Prop :=
  NoDup o.*1 ∧
  obj_lookup o str_length = Some (VNum (Z.of_nat (length (entries o)))).

Definition is_store (h : heap) (this : loc) (o : obj) : Prop :=
  h !! this = Some o ∧ wf_store o.

(** What the methods do to the object they are called on. *)
Definition obj_add_length (o : obj) (d : Z) : obj :=
  match obj_lookup o str_length with
  | Some (VNum n) => obj_set o str_length (VNum (n + d))
  | _ => o
  end.

Definition obj_setKeyValue (o : obj) (key : jsstring) (v : value) : obj :=
  obj_set (match obj_lookup o (encodeKey key) with
           | Some _ => o
           | None => obj_add_length o 1
           end) (encodeKey key) v.

Definition obj_removeByKey (o : obj) (key : jsstring) : obj :=
  match obj_lookup o (encodeKey key) with
  | Some data =>
      if not_null data then obj_add_length (obj_delete o (encodeKey key)) (-1)
      else o
  | None => o
  end.

Definition data_removeByKey (o : obj) (key : jsstring) : value :=
  default VNull (obj_lookup o (encodeKey key)).

(** The loop that [each] runs, with the variable [flag] eliminated: it
    is [false] only at the moment the loop stops. *)
Fixpoint each_loop {L} (this : loc)
    (iteratee : value → jsstring → L → M (value * L))
    (names : list jsstring) (l : L) : M L :=
  match names with
  | [] => ret l
  | name :: names' =>
      let* o := deref this in
      match obj_lookup o name with
      | Some v =>
          if is_data name then
            let* (r, l') := iteratee v (decodeKey name) l in
            if strict_false r then ret l' else each_loop this iteratee names' l'
          else each_loop this iteratee names' l
      | None => each_loop this iteratee names' l
      end
  end.

(** The keys in the order in which [each] hands them to its callback. *)
Definition visited (this : loc) : M (list jsstring) :=
  each this (λ v key visited, ret (VUndefined, visited ++ [key])) [].

(** A run of calls [set(key, value)], in order. *)
Fixpoint set_each (this : loc) (kvs : list (jsstring * value)) : M unit :=
  match kvs with
  | [] => ret tt
  | (key, v) :: kvs' =>
      let* _ := set this (SetKeyValue key v) in set_each this kvs'
  end.

(** The order of first insertion, in the specification's words: a key
    set again keeps its place, a new key goes last. *)
Definition insertion_order (present : list jsstring) (ks : list jsstring)
    : list jsstring :=
  foldl (λ acc k, if bool_decide (k ∈ acc) then acc else acc ++ [k]) present ks.

(** ** Programs over stores

    The operations of a client of [HashMap].  Objects that are not stores
    (the records given to [setObject] and to the constructor) are in the
    heap from the start; every store is made by [new HashMap]. *)
Inductive op :=
  | OpNew (obj : option loc)
  | OpSet (this : loc) (arguments : set_arguments)
  | OpSetObject (this obj : loc)
  | OpMerge (this hashMap : loc)
  | OpRemove (this : loc) (arguments : remove_arguments)
  | OpRemoveByKey (this : loc) (key : jsstring)
  | OpRemoveByKeyArray (this : loc) (keyArray : list jsstring)
  | OpRemoveAll (this : loc).

Definition run_op (c : op) : M unit :=
  match c with
  | OpNew obj => let* _ := HashMap obj in ret tt
  | OpSet this arguments => set this arguments
  | OpSetObject this obj => setObject this obj
  | OpMerge this hashMap => merge this hashMap
  | OpRemove this arguments => let* _ := remove this arguments in ret tt
  | OpRemoveByKey this key => let* _ := removeByKey this key in ret tt
  | OpRemoveByKeyArray this keyArray =>
      let* _ := removeByKeyArray this keyArray in ret tt
  | OpRemoveAll this => removeAll this
  end.

Fixpoint run_ops (ops : list op) : M unit :=
  match ops with
  | [] => ret tt
  | c :: ops' => let* _ := run_op c in run_ops ops'
  end.

(** Well-scoped programs: with the records at the references below
    [records] and [n] objects in the heap, a method is called on a store
    and is given objects that exist. *)
Definition is_ref (n : nat) (l : loc) : bool := (l <? n)%nat.

Definition is_store_ref (records n : nat) (l : loc) : bool :=
  (records <=? l)%nat && (l <? n)%nat.

Definition op_scoped (records n : nat) (c : op) : bool :=
  match c with
  | OpNew None => true
  | OpNew (Some obj) => is_ref n obj
  | OpSet this (SetKeyValue _ _) => is_store_ref records n this
  | OpSet this (SetObject obj) | OpSetObject this obj =>
      is_store_ref records n this && is_ref n obj
  | OpMerge this hashMap =>
      is_store_ref records n this && is_store_ref records n hashMap
  | OpRemove this _ | OpRemoveByKey this _ | OpRemoveByKeyArray this _
  | OpRemoveAll this => is_store_ref records n this
  end.

Fixpoint ops_scoped (records n : nat) (ops : list op) : bool :=
  match ops with
  | [] => true
  | c :: ops' =>
      op_scoped records n c &&
      ops_scoped records (match c with OpNew _ => S n | _ => n end) ops'
  end.

(** The heap of a program: [n] objects, those from [records] on stores. *)
Definition stores_ok (records n : nat) (h : heap) : Prop :=
  length h = n ∧ ∀ l o, (records ≤ l)%nat → h !! l = Some o → wf_store o.

(** Total correctness of a computation: from a heap in [P] it returns,
    with a result and a heap in [Q]. *)
Definition hoare {A} (P : heap → Prop) (m : M A) (Q : A → heap → Prop) : Prop :=
  ∀ h, P h → ∃ a h', m h = Some (a, h') ∧ Q a h'.

(** A key in which the prefix character does not occur. *)
Definition prefix_free (key : jsstring) : Prop := _MAPDATAPREFIX_unit ∉ key.

(** A store all of whose keys are free of the prefix character and none
    of whose values is [null]. *)
Definition plain_entry (p : jsstring * value) : Prop :=
  prefix_free p.1 ∧ p.2 ≠ VNull.

Definition plain_store (o : obj) : Prop := Forall plain_entry (entries o).

(** ** Sample data for the examples *)

Definition key_a : jsstring := [97]%N.
Definition key_b : jsstring := [98]%N.
Definition key_x : jsstring := [120]%N.
Definition key_y : jsstring := [121]%N.

(** The key ["aåb"], in which the prefix character occurs. *)
Definition key_a_prefix_b : jsstring := [97; 229; 98]%N.

(** The object of [new HashMap({a: 1, b: 2})]. *)
Definition store_a1_b2 : obj :=
  [(str_length, VNum 2); (encodeKey key_a, VNum 1); (encodeKey key_b, VNum 2)].

(** The stores [A = {x: 1}] and [B = {x: 2, y: 3}] of the specification's
    merge scenario, and [A] after [A.merge(B)]. *)
Definition store_x1 : obj := [(str_length, VNum 1); (encodeKey key_x, VNum 1)].

Definition store_x2_y3 : obj :=
  [(str_length, VNum 2); (encodeKey key_x, VNum 2); (encodeKey key_y, VNum 3)].

Definition store_b0 : obj := [(str_length, VNum 1); (encodeKey key_b, VNum 0)].

(** The record [{a: 1, b: 2}], and a program over it and two stores. *)
Definition record_a1_b2 : obj := [(key_a, VNum 1); (key_b, VNum 2)].

Definition sample_program : list op :=
  [ OpNew (Some 0%nat);
    OpSet 1%nat (SetKeyValue key_x (VNum 3));
    OpRemove 1%nat (RemoveArray [key_a; key_x]);
    OpNew None;
    OpSet 2%nat (SetKeyValue key_a_prefix_b VNull);
    OpMerge 1%nat 2%nat;
    OpSetObject 2%nat 1%nat;
    OpRemoveAll 1%nat ].

(** The object of [new HashMap()]. *)
Definition store_empty : obj := [(str_length, VNum 0)].

(** The object of a store that holds 1 under ["aåb"]. *)
Definition store_a_prefix_b : obj :=
  [(str_length, VNum 1); (encodeKey key_a_prefix_b, VNum 1)].

(** The object of a store that holds [null] under ["a"]. *)
Definition store_a_null : obj :=
  [(str_length, VNum 1); (encodeKey key_a, VNull)].

(** ** The rest of [hashMap.js] *)

(** [if (x)]: the truth value of a value. *)
Definition truthy (x : value) : bool :=
  match x with
  | VUndefined | VNull => false
  | VBool b => b
  | VNum n => negb (n =? 0)
  | VStr s => negb (bool_decide (s = []))
  | VRef _ => true
  end.

(** [HashMap.prototype.find]; the callback [condition] may run any code.
    The callback of [each] returns nothing, so [each] never stops early. *)
Definition find (this : loc) (condition : value → jsstring → M value)
    : M (list value) :=
  each this
    (λ v key founds,
       let* c := condition v key in
       ret (VUndefined, if truthy c then founds ++ [v] else founds)) [].

(** What [each] computes on the entries of a store for a callback without
    effects: [step] gives what the callback returns and the new values of
    the variables it closes over. *)
Fixpoint each_fold {L} (step : value → jsstring → L → value * L)
    (es : obj) (l : L) : L :=
  match es with
  | [] => l
  | (key, v) :: es' =>
      let (r, l') := step v (decodeKey key) l in
      if strict_false r then l' else each_fold step es' l'
  end.

(** The elements up to and including the first one that satisfies [p]. *)
Fixpoint take_through {A} (p : A → bool) (l : list A) : list A :=
  match l with
  | [] => []
  | x :: l' => if p x then [x] else x :: take_through p l'
  end.

(** [removeByKey] and [removeByKeyArray] on the entries of a store. *)
Definition entries_remove (es : obj) (key : jsstring) : obj :=
  match obj_lookup es key with
  | Some data => if not_null data then obj_delete es key else es
  | None => es
  end.

Fixpoint data_removeByKeyArray (o : obj) (keyArray : list jsstring) : list value :=
  match keyArray with
  | [] => []
  | key :: keyArray' =>
      data_removeByKey o key :: data_removeByKeyArray (obj_removeByKey o key) keyArray'
  end.

(** The store an operation is called on; [new HashMap] is called on none. *)
Definition target (c : op) : option loc :=
  match c with
  | OpNew _ => None
  | OpSet this _ | OpSetObject this _ | OpMerge this _ | OpRemove this _
  | OpRemoveByKey this _ | OpRemoveByKeyArray this _ | OpRemoveAll this =>
      Some this
  end.

(** The object an operation enumerates, besides the store it is called
    on: the record of [setObject], the store merged from. *)
Definition reads (c : op) : option loc :=
  match c with
  | OpSet _ (SetObject obj) | OpSetObject _ obj => Some obj
  | OpMerge _ hashMap => Some hashMap
  | _ => None
  end.

(** [h] is [h0] but for the store at [this], which is a store still. *)
Definition only_this_changed (h0 : heap) (this : loc) (h : heap) : Prop :=
  (∃ o, h !! this = Some o ∧ wf_store o) ∧
  length h = length h0 ∧
  ∀ l, l ≠ this → h !! l = h0 !! l.

(** The store [{a: 1, b: 2, x: 3}] of the specification's scenario, after
    [new HashMap({a: 1, b: 2})] and [set('x', 3)]. *)
Definition store_a1_b2_x3 : obj :=
  [(str_length, VNum 3); (encodeKey key_a, VNum 1); (encodeKey key_b, VNum 2);
   (encodeKey key_x, VNum 3)].

(** ** Lemmas on strings *)

Lemma split_nonempty sep s : split sep s ≠ [].
Proof.
  destruct s as [|c s]; simpl; [done|].
  destruct (N.eqb c sep); [done|]. by destruct (split sep s).
Qed.

Lemma split_no_sep sep s : sep ∉ s → split sep s = [s].
Proof.
  induction s as [|c s IH]; intros Hn; simpl; [done|].
  apply not_elem_of_cons in Hn as [Hc Hs].
  destruct (N.eqb_spec c sep) as [->|_]; [done|].
  by rewrite (IH Hs).
Qed.

Lemma join_split sep s : join sep (split sep s) = s.
Proof.
  induction s as [|c s IH]; simpl; [done|].
  destruct (N.eqb_spec c sep) as [->|_].
  - simpl. destruct (split sep s) eqn:E; [by destruct (split_nonempty sep s)|].
    by rewrite IH.
  - destruct (split sep s) as [|seg segs] eqn:E; [by destruct (split_nonempty sep s)|].
    simpl in *. destruct segs; simpl in *; by rewrite <-IH.
Qed.

Lemma split_segments_no_sep sep s seg : seg ∈ split sep s → sep ∉ seg.
Proof.
  revert seg. induction s as [|c s IH]; intros seg; simpl.
  - intros ->%list_elem_of_singleton. apply not_elem_of_nil.
  - destruct (N.eqb_spec c sep) as [->|Hne].
    + intros [->|Hin]%elem_of_cons; [apply not_elem_of_nil | by apply IH].
    + destruct (split sep s) as [|seg0 segs] eqn:E.
      * intros ->%list_elem_of_singleton.
        intros [?|?%not_elem_of_nil]%elem_of_cons; congruence.
      * intros [->|Hin]%elem_of_cons.
        -- intros [?|Hin]%elem_of_cons; [congruence|].
           revert Hin. apply IH. by left.
        -- apply IH. by right.
Qed.

Lemma last_split_cons sep c s :
  List.last (split sep (c :: s)) [] =
  if bool_decide (sep ∈ s) then List.last (split sep s) []
  else if N.eqb c sep then s else c :: s.
Proof.
  simpl. case_bool_decide as Hin.
  - assert (∃ a b l, split sep s = a :: b :: l) as (a & b & l & E).
    { clear c. induction s as [|d s IH]; [by apply not_elem_of_nil in Hin|].
      simpl. destruct (N.eqb_spec d sep) as [->|Hne].
      - destruct (split sep s) eqn:E; [by destruct (split_nonempty sep s)|]. eauto.
      - apply elem_of_cons in Hin as [->|Hin]; [done|].
        destruct (IH Hin) as (a & b & l & ->). eauto. }
    rewrite E. by destruct (N.eqb c sep).
  - rewrite (split_no_sep _ _ Hin). by destruct (N.eqb c sep).
Qed.

Lemma decodeKey_spec_last_segment s : decodeKey s = spec_last_segment s.
Proof.
  unfold decodeKey. induction s as [|c s IH]; [done|].
  rewrite last_split_cons. simpl. by rewrite IH.
Qed.

Lemma decodeKey_no_prefix s : _MAPDATAPREFIX_unit ∉ s → decodeKey s = s.
Proof. intros Hn. unfold decodeKey. by rewrite split_no_sep. Qed.

Lemma decodeKey_encodeKey s : decodeKey (encodeKey s) = decodeKey s.
Proof.
  unfold decodeKey, encodeKey, _MAPDATAPREFIX. simpl app.
  rewrite last_split_cons. case_bool_decide as Hin; [done|].
  rewrite N.eqb_refl. by rewrite split_no_sep.
Qed.

Lemma last_elem_of {A} (l : list A) d : l ≠ [] → List.last l d ∈ l.
Proof.
  induction l as [|x l IH]; [done|]. intros _.
  destruct l as [|y l]; [by left|].
  right. by apply IH.
Qed.

Lemma decodeKey_clean s : _MAPDATAPREFIX_unit ∉ decodeKey s.
Proof.
  unfold decodeKey. eapply split_segments_no_sep.
  apply last_elem_of, split_nonempty.
Qed.

Lemma decodeKey_idemp s : decodeKey (decodeKey s) = decodeKey s.
Proof. apply decodeKey_no_prefix, decodeKey_clean. Qed.

Lemma decodeKey_suffix s :
  _MAPDATAPREFIX_unit ∈ s →
  ∃ pre, s = pre ++ _MAPDATAPREFIX_unit :: decodeKey s.
Proof.
  rewrite decodeKey_spec_last_segment.
  induction s as [|c s IH]; [by intros ?%not_elem_of_nil|].
  intros Hin. simpl. case_bool_decide as Hs.
  - destruct (IH Hs) as [pre E]. exists (c :: pre). simpl. by rewrite <-E.
  - apply elem_of_cons in Hin as [<-|?]; [|done].
    rewrite N.eqb_refl. by exists [].
Qed.
(** ** Lemmas on objects *)

Section objects.
Implicit Types (o : obj) (name : jsstring) (v : value).

Lemma obj_lookup_None o name : obj_lookup o name = None ↔ name ∉ o.*1.
Proof.
  induction o as [|[n' v'] o IH]; csimpl.
  - split; [intros _; apply not_elem_of_nil | done].
  - unfold str_eqb. case_bool_decide as E.
    + subst. split; [done|]. intros []. by left.
    + rewrite IH, not_elem_of_cons.
      split; [intros H; split; [congruence|done] | by intros [_ ?]].
Qed.

Lemma obj_lookup_Some_elem o name v :
  obj_lookup o name = Some v → (name, v) ∈ o.
Proof.
  induction o as [|[n' v'] o IH]; csimpl; [done|].
  unfold str_eqb. case_bool_decide as E.
  - intros [= ->]. subst. by left.
  - intros H. right. by apply IH.
Qed.

Lemma obj_lookup_elem o name v :
  NoDup o.*1 → (name, v) ∈ o → obj_lookup o name = Some v.
Proof.
  induction o as [|[n' v'] o IH]; csimpl; [by intros _ ?%not_elem_of_nil|].
  intros [Hn Hd]%NoDup_cons [[= -> ->]|Hin]%elem_of_cons.
  - unfold str_eqb. by rewrite bool_decide_eq_true_2.
  - unfold str_eqb. case_bool_decide as E; [|by apply IH].
    subst. destruct Hn. apply list_elem_of_fmap. by exists (name, v).
Qed.

Lemma obj_lookup_set_eq o name v : obj_lookup (obj_set o name v) name = Some v.
Proof.
  induction o as [|[n' v'] o IH]; csimpl; unfold str_eqb.
  - by rewrite bool_decide_eq_true_2.
  - case_bool_decide as E; csimpl; unfold str_eqb.
    + by rewrite bool_decide_eq_true_2.
    + by rewrite bool_decide_eq_false_2.
Qed.

Lemma obj_lookup_set_ne o name name' v :
  name ≠ name' → obj_lookup (obj_set o name v) name' = obj_lookup o name'.
Proof.
  intros Hne. induction o as [|[n' v'] o IH]; csimpl; unfold str_eqb.
  - by rewrite bool_decide_eq_false_2.
  - case_bool_decide as E; csimpl; unfold str_eqb.
    + subst. by rewrite !bool_decide_eq_false_2.
    + by rewrite IH.
Qed.

Lemma obj_set_same o name v : obj_lookup o name = Some v → obj_set o name v = o.
Proof.
  induction o as [|[n' v'] o IH]; csimpl; [done|]. unfold str_eqb.
  case_bool_decide as E; [by intros [= ->]|].
  intros H. by rewrite IH.
Qed.

Lemma obj_set_names o name v :
  (obj_set o name v).*1 =
  match obj_lookup o name with
  | Some _ => o.*1
  | None => o.*1 ++ [name]
  end.
Proof.
  induction o as [|[n' v'] o IH]; csimpl; [done|]. unfold str_eqb.
  case_bool_decide as E; [done|]. rewrite fmap_cons, IH.
  by destruct (obj_lookup o name).
Qed.

Lemma obj_set_NoDup o name v : NoDup o.*1 → NoDup (obj_set o name v).*1.
Proof.
  intros Hd. rewrite obj_set_names.
  destruct (obj_lookup o name) eqn:E; [done|].
  apply NoDup_app. split_and!; [done| |apply NoDup_singleton].
  intros x Hx ->%list_elem_of_singleton. by apply obj_lookup_None in E.
Qed.

Lemma obj_delete_absent o name : obj_lookup o name = None → obj_delete o name = o.
Proof.
  induction o as [|[n' v'] o IH]; csimpl; [done|]. unfold str_eqb.
  case_bool_decide as E; [done|]. intros H. by rewrite IH.
Qed.

Lemma obj_delete_names_subseteq o name : (obj_delete o name).*1 ⊆ o.*1.
Proof.
  induction o as [|[n' v'] o IH]; csimpl; [done|]. unfold str_eqb.
  case_bool_decide as E; csimpl.
  - by apply list_subseteq_cons.
  - intros x [->|Hx]%elem_of_cons; [by left|]. right. by apply IH.
Qed.

Lemma obj_delete_NoDup o name : NoDup o.*1 → NoDup (obj_delete o name).*1.
Proof.
  induction o as [|[n' v'] o IH]; csimpl; [done|]. unfold str_eqb.
  intros [Hn Hd]%NoDup_cons. case_bool_decide as E; [done|]. csimpl.
  apply NoDup_cons. split; [|by apply IH].
  intros Hin. apply Hn. by apply (obj_delete_names_subseteq o name).
Qed.

Lemma obj_lookup_delete_eq o name :
  NoDup o.*1 → obj_lookup (obj_delete o name) name = None.
Proof.
  induction o as [|[n' v'] o IH]; csimpl; [done|]. unfold str_eqb.
  intros [Hn Hd]%NoDup_cons. case_bool_decide as E.
  - subst. by apply obj_lookup_None.
  - csimpl. unfold str_eqb. rewrite bool_decide_eq_false_2 by done. by apply IH.
Qed.

Lemma obj_lookup_delete_ne o name name' :
  name ≠ name' → obj_lookup (obj_delete o name) name' = obj_lookup o name'.
Proof.
  intros Hne. induction o as [|[n' v'] o IH]; csimpl; [done|]. unfold str_eqb.
  case_bool_decide as E; csimpl; unfold str_eqb.
  - subst. by rewrite bool_decide_eq_false_2.
  - by rewrite IH.
Qed.
End objects.

(** ** Lemmas on the entries of a store object *)

Section entries.
Implicit Types (o : obj) (name key : jsstring) (v : value).

Lemma user_key_encodeKey key : user_key (encodeKey key) = Some key.
Proof. done. Qed.

Lemma user_key_Some name key : user_key name = Some key ↔ name = encodeKey key.
Proof.
  destruct name as [|c s]; simpl; [done|].
  unfold encodeKey, _MAPDATAPREFIX. simpl.
  destruct (N.eqb_spec c _MAPDATAPREFIX_unit) as [->|Hne]; naive_solver.
Qed.

Lemma is_data_user_key name : is_data name = true ↔ is_Some (user_key name).
Proof.
  unfold is_data, str_eqb, _MAPDATAPREFIX.
  destruct name as [|c s]; simpl.
  - split; [done|]. by intros [? ?].
  - destruct (N.eqb_spec c _MAPDATAPREFIX_unit) as [->|Hne].
    + rewrite bool_decide_eq_true_2 by done. split; eauto.
    + rewrite bool_decide_eq_false_2 by congruence. split; [done|]. by intros [? ?].
Qed.

Lemma is_data_encodeKey key : is_data (encodeKey key) = true.
Proof. done. Qed.

Lemma user_key_length : user_key str_length = None.
Proof. done. Qed.

Lemma encodeKey_inj key1 key2 : encodeKey key1 = encodeKey key2 → key1 = key2.
Proof. unfold encodeKey. by intros ?%(inj (app _)). Qed.

Lemma encodeKey_not_length key : encodeKey key ≠ str_length.
Proof. done. Qed.

Lemma lookup_entries o key :
  obj_lookup (entries o) key = obj_lookup o (encodeKey key).
Proof.
  induction o as [|[n' v'] o IH]; [done|].
  unfold entries. csimpl. fold (entries o). unfold str_eqb.
  destruct (user_key n') as [k'|] eqn:E; csimpl.
  - apply user_key_Some in E as ->. unfold str_eqb.
    case_bool_decide as E1.
    + subst. by rewrite bool_decide_eq_true_2.
    + rewrite bool_decide_eq_false_2; [done|]. by intros ?%encodeKey_inj.
  - rewrite bool_decide_eq_false_2; [done|].
    intros ->. by rewrite user_key_encodeKey in E.
Qed.

Lemma entries_set_other o name v :
  user_key name = None → entries (obj_set o name v) = entries o.
Proof.
  intros Hn. induction o as [|[n' v'] o IH]; csimpl.
  - unfold entries. csimpl. by rewrite Hn.
  - unfold str_eqb. case_bool_decide as E.
    + subst. unfold entries. csimpl. by rewrite Hn.
    + unfold entries in *. csimpl. by rewrite IH.
Qed.

Lemma entries_set_data o key v :
  entries (obj_set o (encodeKey key) v) = obj_set (entries o) key v.
Proof.
  induction o as [|[n' v'] o IH]; [done|].
  csimpl. unfold str_eqb. case_bool_decide as E.
  - subst. unfold entries. csimpl. unfold str_eqb.
    by rewrite bool_decide_eq_true_2.
  - unfold entries in *. csimpl. rewrite IH.
    destruct (user_key n') as [k'|] eqn:E1; csimpl; [|done].
    apply user_key_Some in E1 as ->. unfold str_eqb.
    rewrite bool_decide_eq_false_2; [done|]. congruence.
Qed.

Lemma entries_delete_other o name :
  user_key name = None → entries (obj_delete o name) = entries o.
Proof.
  intros Hn. induction o as [|[n' v'] o IH]; [done|].
  csimpl. unfold str_eqb. case_bool_decide as E.
  - subst. unfold entries. csimpl. by rewrite Hn.
  - unfold entries in *. csimpl. by rewrite IH.
Qed.

Lemma entries_delete_data o key :
  entries (obj_delete o (encodeKey key)) = obj_delete (entries o) key.
Proof.
  induction o as [|[n' v'] o IH]; [done|].
  csimpl. unfold str_eqb. case_bool_decide as E.
  - subst. unfold entries. csimpl. unfold str_eqb.
    by rewrite bool_decide_eq_true_2.
  - unfold entries in *. csimpl. rewrite IH.
    destruct (user_key n') as [k'|] eqn:E1; csimpl; [|done].
    apply user_key_Some in E1 as ->. unfold str_eqb.
    rewrite bool_decide_eq_false_2; [done|]. congruence.
Qed.

Lemma entries_names o : encodeKey <$> (entries o).*1 = filter (λ n, is_data n = true) o.*1.
Proof.
  induction o as [|[n' v'] o IH]; [done|].
  unfold entries in *. csimpl. rewrite filter_cons.
  destruct (user_key n') as [k'|] eqn:E1; csimpl.
  - rewrite decide_True; [|apply is_data_user_key; by rewrite E1].
    apply user_key_Some in E1 as ->. by rewrite IH.
  - rewrite decide_False; [done|].
    rewrite is_data_user_key, E1. by intros [? ?].
Qed.

Lemma entries_NoDup o : NoDup o.*1 → NoDup (entries o).*1.
Proof.
  intros Hd. eapply (NoDup_fmap_1 encodeKey).
  rewrite entries_names. by apply NoDup_filter.
Qed.

Lemma obj_set_length o name v :
  length (obj_set o name v) =
  match obj_lookup o name with
  | Some _ => length o
  | None => S (length o)
  end.
Proof.
  induction o as [|[n' v'] o IH]; [done|].
  csimpl. unfold str_eqb. case_bool_decide as E; [done|].
  csimpl. rewrite IH. by destruct (obj_lookup o name).
Qed.

Lemma obj_delete_length o name v :
  obj_lookup o name = Some v → S (length (obj_delete o name)) = length o.
Proof.
  induction o as [|[n' v'] o IH]; [done|].
  csimpl. unfold str_eqb. case_bool_decide as E; [done|].
  intros H. csimpl. by rewrite IH.
Qed.

Lemma wf_store_length o :
  wf_store o →
  obj_lookup o str_length = Some (VNum (Z.of_nat (length (entries o)))).
Proof. by intros [_ ?]. Qed.

Lemma obj_add_length_wf o n d :
  obj_lookup o str_length = Some (VNum n) →
  obj_add_length o d = obj_set o str_length (VNum (n + d)).
Proof. intros H. unfold obj_add_length. by rewrite H. Qed.

(** [setKeyValue] on the object: the entries are updated as an ordered
    map, and the count follows. *)
Lemma obj_setKeyValue_entries o key v :
  wf_store o → entries (obj_setKeyValue o key v) = obj_set (entries o) key v.
Proof.
  intros [Hd Hl]. unfold obj_setKeyValue. rewrite entries_set_data.
  destruct (obj_lookup o (encodeKey key)); [done|].
  erewrite obj_add_length_wf by done. by rewrite entries_set_other.
Qed.

Lemma obj_setKeyValue_wf o key v : wf_store o → wf_store (obj_setKeyValue o key v).
Proof.
  intros Hwf. pose proof Hwf as [Hd Hl]. split.
  - unfold obj_setKeyValue. apply obj_set_NoDup.
    destruct (obj_lookup o (encodeKey key)); [done|].
    erewrite obj_add_length_wf by done. by apply obj_set_NoDup.
  - rewrite obj_setKeyValue_entries, obj_set_length, lookup_entries by done.
    unfold obj_setKeyValue.
    rewrite obj_lookup_set_ne by apply encodeKey_not_length.
    destruct (obj_lookup o (encodeKey key)); [done|].
    erewrite obj_add_length_wf by done. rewrite obj_lookup_set_eq.
    do 2 f_equal. lia.
Qed.

Lemma obj_removeByKey_entries o key :
  wf_store o →
  entries (obj_removeByKey o key) =
  match obj_lookup (entries o) key with
  | Some data => if not_null data then obj_delete (entries o) key else entries o
  | None => entries o
  end.
Proof.
  intros [Hd Hl]. unfold obj_removeByKey. rewrite lookup_entries.
  destruct (obj_lookup o (encodeKey key)) as [data|]; [|done].
  destruct (not_null data); [|done].
  erewrite obj_add_length_wf.
  - by rewrite entries_set_other, entries_delete_data.
  - rewrite obj_lookup_delete_ne by apply encodeKey_not_length. done.
Qed.

Lemma obj_removeByKey_wf o key : wf_store o → wf_store (obj_removeByKey o key).
Proof.
  intros Hwf. pose proof Hwf as [Hd Hl]. split.
  - unfold obj_removeByKey.
    destruct (obj_lookup o (encodeKey key)) as [data|]; [|done].
    destruct (not_null data); [|done].
    erewrite obj_add_length_wf;
      [|by rewrite obj_lookup_delete_ne by apply encodeKey_not_length].
    by apply obj_set_NoDup, obj_delete_NoDup.
  - rewrite obj_removeByKey_entries by done. unfold obj_removeByKey.
    rewrite lookup_entries.
    destruct (obj_lookup o (encodeKey key)) as [data|] eqn:E; [|done].
    destruct (not_null data); [|done].
    erewrite obj_add_length_wf;
      [|by rewrite obj_lookup_delete_ne by apply encodeKey_not_length].
    rewrite obj_lookup_set_eq. do 2 f_equal.
    rewrite <-lookup_entries in E. apply obj_delete_length in E. lia.
Qed.
End entries.

(** ** Running the methods *)

Section runs.
Implicit Types (h : heap) (o : obj) (this : loc) (name key : jsstring)
  (v : value).

Lemma bind_run {A B} (m : M A) (f : A → M B) h a h' :
  m h = Some (a, h') → bind m f h = f a h'.
Proof. intros H. unfold bind. by rewrite H. Qed.

Lemma bind_unfold {A B} (m : M A) (f : A → M B) h :
  bind m f h = match m h with
               | Some (a, h') => f a h'
               | None => None
               end.
Proof. done. Qed.

Lemma bind_inv {A B} (m : M A) (f : A → M B) h b h'' :
  bind m f h = Some (b, h'') → ∃ a h', m h = Some (a, h') ∧ f a h' = Some (b, h'').
Proof. unfold bind. destruct (m h) as [[a h']|]; [eauto|done]. Qed.

Lemma heap_lookup_update h this o o' :
  h !! this = Some o → <[this := o']> h !! this = Some o'.
Proof. intros H. apply list_lookup_insert_eq. by eapply lookup_lt_Some. Qed.

Lemma heap_lookup_update_ne h this l o' :
  this ≠ l → <[this := o']> h !! l = h !! l.
Proof. apply list_lookup_insert_ne. Qed.

Lemma heap_update_update h this o o' :
  <[this := o']> (<[this := o]> h) = <[this := o']> h.
Proof. apply list_insert_insert_eq. Qed.

Lemma heap_update_same h this o : h !! this = Some o → <[this := o]> h = h.
Proof. apply list_insert_id. Qed.

Lemma deref_run h this o : h !! this = Some o → deref this h = Some (o, h).
Proof. intros H. unfold deref. by rewrite H. Qed.

Lemma update_run h this o f :
  h !! this = Some o → update this f h = Some (tt, <[this := f o]> h).
Proof. intros H. unfold update. by erewrite bind_run by by apply deref_run. Qed.

Lemma get_prop_run h this o name :
  h !! this = Some o →
  get_prop this name h = Some (default VUndefined (obj_lookup o name), h).
Proof. intros H. unfold get_prop. by erewrite bind_run by by apply deref_run. Qed.

Lemma put_prop_run h this o name v :
  h !! this = Some o →
  put_prop this name v h = Some (tt, <[this := obj_set o name v]> h).
Proof. apply update_run. Qed.

Lemma delete_prop_run h this o name :
  h !! this = Some o →
  delete_prop this name h = Some (tt, <[this := obj_delete o name]> h).
Proof. apply update_run. Qed.

Lemma hasOwnProperty_run h this o name :
  h !! this = Some o →
  hasOwnProperty this name h = Some (bool_decide (is_Some (obj_lookup o name)), h).
Proof. intros H. unfold hasOwnProperty. by erewrite bind_run by by apply deref_run. Qed.

Lemma has_run h this o key :
  h !! this = Some o →
  has this key h = Some (bool_decide (is_Some (obj_lookup o (encodeKey key))), h).
Proof. apply hasOwnProperty_run. Qed.

Lemma get_run h this o key :
  h !! this = Some o →
  get this key h = Some (default VUndefined (obj_lookup o (encodeKey key)), h).
Proof. apply get_prop_run. Qed.

Lemma size_run h this o :
  is_store h this o →
  size this h = Some (VNum (Z.of_nat (length (entries o))), h).
Proof.
  intros [H [_ Hl]]. unfold size. erewrite get_prop_run by done. by rewrite Hl.
Qed.

Lemma add_length_run h this o d :
  is_store h this o →
  (let* n := get_prop this str_length in
   let* n' := num_add n d in
   put_prop this str_length n') h
  = Some (tt, <[this := obj_add_length o d]> h).
Proof.
  intros [H [_ Hl]].
  erewrite bind_run by by apply get_prop_run.
  rewrite Hl. simpl. erewrite bind_run by done.
  erewrite put_prop_run by done. by erewrite obj_add_length_wf.
Qed.

Lemma setKeyValue_run h this o key v :
  is_store h this o →
  setKeyValue this key v h = Some (tt, <[this := obj_setKeyValue o key v]> h).
Proof.
  intros Hs. pose proof Hs as [H [Hd Hl]]. unfold setKeyValue, obj_setKeyValue.
  erewrite bind_run by by apply has_run.
  destruct (obj_lookup o (encodeKey key)) as [v'|] eqn:E.
  - rewrite bool_decide_eq_true_2 by eauto. simpl.
    erewrite bind_run by done. by erewrite put_prop_run.
  - rewrite bool_decide_eq_false_2 by (by intros [? ?]). simpl.
    erewrite bind_run by by apply add_length_run.
    erewrite put_prop_run by by eapply heap_lookup_update.
    by rewrite heap_update_update.
Qed.

Lemma removeByKey_run h this o key :
  is_store h this o →
  removeByKey this key h =
  Some (data_removeByKey o key, <[this := obj_removeByKey o key]> h).
Proof.
  intros Hs. pose proof Hs as [H [Hd Hl]].
  unfold removeByKey, obj_removeByKey, data_removeByKey.
  erewrite bind_run by by apply has_run.
  destruct (obj_lookup o (encodeKey key)) as [data|] eqn:E.
  - rewrite bool_decide_eq_true_2 by eauto.
    erewrite bind_run by by apply get_run. rewrite E. simpl.
    destruct (not_null data) eqn:En.
    + erewrite bind_run; [done|].
      erewrite bind_run by by apply delete_prop_run.
      erewrite bind_run by (by eapply get_prop_run, heap_lookup_update).
      rewrite obj_lookup_delete_ne, Hl by apply encodeKey_not_length.
      simpl. erewrite bind_run by done.
      erewrite put_prop_run by by eapply heap_lookup_update.
      rewrite heap_update_update. erewrite obj_add_length_wf; [done|].
      by rewrite obj_lookup_delete_ne by apply encodeKey_not_length.
    + erewrite bind_run by done. unfold ret. by rewrite heap_update_same.
  - rewrite bool_decide_eq_false_2 by (by intros [? ?]).
    erewrite bind_run by done. simpl. erewrite bind_run by done.
    unfold ret. by rewrite heap_update_same.
Qed.

Lemma remove_key_run h this o key :
  is_store h this o →
  remove this (RemoveKey key) h =
  Some (Removed (data_removeByKey o key), <[this := obj_removeByKey o key]> h).
Proof.
  intros Hs. unfold remove. by erewrite bind_run by by apply removeByKey_run.
Qed.
End runs.

(** ** The iteration of [each] *)

Section each.
Context {L : Type}.
Implicit Types (h : heap) (o : obj) (this : loc) (name key : jsstring)
  (v : value) (l : L) (iteratee : value → jsstring → L → M (value * L)).

Lemma each_forIn this iteratee names flag l h :
  strict_false flag = false →
  (let* (_, l') := forIn this
      (λ v key '(flag, l),
         let* (flag, l) := (if str_eqb (charAt0 key) _MAPDATAPREFIX
                            then iteratee v (decodeKey key) l
                            else ret (flag, l)) in
         if strict_false flag then ret (flag, (flag, l))
         else ret (VUndefined, (flag, l)))
      names (flag, l) in
   ret l') h
  = each_loop this iteratee names l h.
Proof.
  revert flag l h. induction names as [|name names IH]; intros flag l h Hf.
  - done.
  - cbn [forIn each_loop]. rewrite !bind_unfold.
    destruct (deref this h) as [[o h0]|]; [|done].
    destruct (obj_lookup o name) as [v|]; [|by apply IH].
    fold (is_data name). rewrite !bind_unfold. destruct (is_data name).
    + rewrite ?bind_unfold.
      destruct (iteratee v (decodeKey name) l h0) as [[[r l'] h1]|]; [|done].
      destruct (strict_false r) eqn:Er; cbn; rewrite ?Er; cbn; [done|].
      by apply IH.
    + cbn. rewrite Hf. cbn. by apply IH.
Qed.

Lemma each_run this iteratee l h o :
  h !! this = Some o →
  each this iteratee l h = each_loop this iteratee (o.*1) l h.
Proof.
  intros H. unfold each, forEachOwnProperties.
  rewrite <-(each_forIn _ _ _ VUndefined) by done.
  rewrite !bind_unfold. by rewrite (deref_run _ _ _ H).
Qed.

(** An invariant for loops whose callback never asks to stop.  The
    invariant sees the names still to be visited. *)
Lemma each_loop_inv (I : list jsstring → heap → L → Prop) this iteratee :
  (∀ name names h l, I (name :: names) h l →
     ∃ o, h !! this = Some o ∧
       match obj_lookup o name with
       | Some v =>
           if is_data name then
             ∃ r l' h', iteratee v (decodeKey name) l h = Some ((r, l'), h') ∧
                        strict_false r = false ∧ I names h' l'
           else I names h l
       | None => I names h l
       end) →
  ∀ names h l, I names h l →
    ∃ l' h', each_loop this iteratee names l h = Some (l', h') ∧ I [] h' l'.
Proof.
  intros Hstep names. induction names as [|name names IH]; intros h l HI.
  - by exists l, h.
  - destruct (Hstep _ _ _ _ HI) as (o & Ho & Hcase). simpl.
    erewrite bind_run by by apply deref_run.
    destruct (obj_lookup o name) as [v|]; [|by apply IH].
    destruct (is_data name); [|by apply IH].
    destruct Hcase as (r & l' & h' & Hit & Hr & HI').
    erewrite bind_run by done. cbn. rewrite Hr. by apply IH.
Qed.
End each.

(** ** The read-only iterations: [keys] and [toArray] *)

Section collect.
Implicit Types (h : heap) (o : obj) (this : loc) (name key : jsstring)
  (v : value).

Lemma each_loop_collect {A} (f : value → jsstring → A) this o h :
  h !! this = Some o →
  ∀ names acc,
    each_loop this (λ v key acc, ret (VUndefined, acc ++ [f v key])) names acc h
    = Some (acc ++ omap (λ name,
                match obj_lookup o name with
                | Some v => if is_data name then Some (f v (decodeKey name)) else None
                | None => None
                end) names, h).
Proof.
  intros H names. induction names as [|name names IH]; intros acc.
  - cbn. by rewrite app_nil_r.
  - cbn [each_loop]. erewrite bind_run by by apply deref_run. csimpl.
    destruct (obj_lookup o name) as [v|]; [|by apply IH].
    destruct (is_data name); [|by apply IH].
    erewrite bind_run by done. cbn. rewrite IH. by rewrite <-app_assoc.
Qed.

Lemma collect_entries {A} (f : value → jsstring → A) o (o' : obj) :
  NoDup o.*1 → o' ⊆ o →
  omap (λ name,
     match obj_lookup o name with
     | Some v => if is_data name then Some (f v (decodeKey name)) else None
     | None => None
     end) o'.*1
  = (λ p, f p.2 (decodeKey p.1)) <$> entries o'.
Proof.
  intros Hd. induction o' as [|[n' v'] o' IH]; intros Hsub; [done|].
  csimpl. unfold entries. csimpl. fold (entries o').
  rewrite (obj_lookup_elem o n' v'), IH;
    [|by intros x Hx; apply Hsub; right|done|by apply Hsub; left].
  destruct (user_key n') as [k|] eqn:E; csimpl.
  - rewrite (proj2 (is_data_user_key n')) by eauto.
    apply user_key_Some in E as ->. by rewrite decodeKey_encodeKey.
  - destruct (is_data n') eqn:Ed; [|done].
    apply is_data_user_key in Ed as [? ?]. congruence.
Qed.

Lemma keys_run h this o :
  h !! this = Some o → NoDup o.*1 →
  keys this h = Some (decodeKey <$> (entries o).*1, h).
Proof.
  intros H Hd. unfold keys. erewrite each_run by done.
  erewrite each_loop_collect by done.
  rewrite collect_entries by done. csimpl. do 2 f_equal.
  rewrite <-list_fmap_compose. apply list_fmap_ext.
  intros _ [k v] _. csimpl. apply decodeKey_idemp.
Qed.

Lemma toArray_run h this o :
  h !! this = Some o → NoDup o.*1 →
  toArray this h = Some ((entries o).*2, h).
Proof.
  intros H Hd. unfold toArray. erewrite each_run by done.
  rewrite (each_loop_collect (λ v _, v) this o) by done.
  by rewrite (collect_entries (λ v _, v)).
Qed.
End collect.

(** ** Stores in the heap *)

Section stores.
Implicit Types (h : heap) (o : obj) (this : loc) (name key : jsstring)
  (v : value).

Lemma is_store_update h this o o' :
  h !! this = Some o → wf_store o' → is_store (<[this := o']> h) this o'.
Proof. intros H Hwf. split; [by eapply heap_lookup_update | done]. Qed.

Lemma wf_store_decide o :
  bool_decide (NoDup o.*1) = true →
  obj_lookup o str_length = Some (VNum (Z.of_nat (length (entries o)))) →
  wf_store o.
Proof. intros Hd%bool_decide_eq_true_1 Hl. by split. Qed.

Lemma prefix_free_decide key :
  bool_decide (_MAPDATAPREFIX_unit ∈ key) = false → prefix_free key.
Proof. by intros ?%bool_decide_eq_false_1. Qed.
End stores.

(** ** The keys: claims C7 and C8 *)

(** C7. For every string key [k] that does not contain the reserved prefix
    character, [decodeKey(encodeKey(k))] is [k]; and [encodeKey] is
    injective over all string keys. *)
Theorem encode_decode_roundtrip_injective (k k1 k2 : jsstring) :
  (prefix_free k → decodeKey (encodeKey k) = k) ∧
  (encodeKey k1 = encodeKey k2 → k1 = k2).
Proof.
  split.
  - intros Hk. rewrite decodeKey_encodeKey. by apply decodeKey_no_prefix.
  - apply encodeKey_inj.
Qed.

Lemma encode_decode_roundtrip_injective_witness :
  decodeKey (encodeKey key_a) = key_a ∧
  (encodeKey key_a = encodeKey key_a → key_a = key_a).
Proof.
  destruct (encode_decode_roundtrip_injective key_a key_a key_a) as [H1 H2].
  split; [apply H1, prefix_free_decide; reflexivity | exact H2].
Defined.

(** C8. For every string [s], [decodeKey(s)] is the last segment of [s]
    split on the reserved prefix character: it is free of the prefix
    character, it is [s] itself when [s] is, and otherwise [s] ends with
    the prefix character followed by it.  Hence for a user key [s] that
    contains the prefix character, [decodeKey(encodeKey(s))] is the last
    prefix-delimited segment of [s] and not [s]: decoding is lossy. *)
Theorem decodeKey_last_segment (s : jsstring) :
  decodeKey s = spec_last_segment s ∧
  join _MAPDATAPREFIX_unit (split _MAPDATAPREFIX_unit s) = s ∧
  prefix_free (decodeKey s) ∧
  (prefix_free s → decodeKey s = s) ∧
  (¬ prefix_free s →
     (∃ pre, s = pre ++ _MAPDATAPREFIX ++ decodeKey s) ∧
     decodeKey (encodeKey s) = spec_last_segment s ∧
     decodeKey (encodeKey s) ≠ s).
Proof.
  split_and!.
  - apply decodeKey_spec_last_segment.
  - apply join_split.
  - apply decodeKey_clean.
  - apply decodeKey_no_prefix.
  - intros Hs. unfold prefix_free in Hs. apply dec_stable in Hs. split_and!.
    + by apply decodeKey_suffix.
    + by rewrite decodeKey_encodeKey, decodeKey_spec_last_segment.
    + intros E. apply (decodeKey_clean (encodeKey s)). by rewrite E.
Qed.

Lemma decodeKey_last_segment_witness :
  decodeKey (encodeKey key_a_prefix_b) = key_b ∧
  decodeKey (encodeKey key_a_prefix_b) ≠ key_a_prefix_b ∧
  decodeKey key_a = key_a.
Proof.
  destruct (decodeKey_last_segment key_a_prefix_b) as (_ & _ & _ & _ & H).
  destruct (decodeKey_last_segment key_a) as (_ & _ & _ & Hclean & _).
  destruct H as (_ & Hlast & Hne).
  - intros Hfree. apply Hfree. vm_compute. do 1 constructor. constructor.
  - split_and!; [by rewrite Hlast | exact Hne |].
    apply Hclean, prefix_free_decide. reflexivity.
Defined.

(** ** Setting and removing one key: claims C5, C6, C1 *)

Section set_remove.
Implicit Types (h : heap) (o : obj) (this : loc) (name key : jsstring)
  (v : value).

Lemma setKeyValue_store h this o key v :
  is_store h this o →
  ∃ h' o',
    setKeyValue this key v h = Some (tt, h') ∧
    is_store h' this o' ∧
    h' = <[this := o']> h ∧
    entries o' = obj_set (entries o) key v.
Proof.
  intros Hs. exists (<[this := obj_setKeyValue o key v]> h), (obj_setKeyValue o key v).
  destruct Hs as [H Hwf]. split_and!.
  - by apply setKeyValue_run.
  - eapply is_store_update; [done|]. by apply obj_setKeyValue_wf.
  - done.
  - by apply obj_setKeyValue_entries.
Qed.

Lemma removeByKey_store h this o key :
  is_store h this o →
  ∃ h' o',
    removeByKey this key h = Some (default VNull (obj_lookup (entries o) key), h') ∧
    is_store h' this o' ∧
    h' = <[this := o']> h ∧
    entries o' =
      match obj_lookup (entries o) key with
      | Some data => if not_null data then obj_delete (entries o) key else entries o
      | None => entries o
      end.
Proof.
  intros Hs. exists (<[this := obj_removeByKey o key]> h), (obj_removeByKey o key).
  destruct Hs as [H Hwf]. split_and!.
  - rewrite lookup_entries. by apply removeByKey_run.
  - eapply is_store_update; [done|]. by apply obj_removeByKey_wf.
  - done.
  - by apply obj_removeByKey_entries.
Qed.

Lemma has_store h this o key :
  is_store h this o →
  has this key h = Some (bool_decide (is_Some (obj_lookup (entries o) key)), h).
Proof. intros [H _]. rewrite lookup_entries. by apply has_run. Qed.

Lemma get_store h this o key :
  is_store h this o →
  get this key h = Some (default VUndefined (obj_lookup (entries o) key), h).
Proof. intros [H _]. rewrite lookup_entries. by apply get_run. Qed.

Lemma keys_store h this o :
  is_store h this o → keys this h = Some (decodeKey <$> (entries o).*1, h).
Proof. intros [H [Hd _]]. by apply keys_run. Qed.
End set_remove.

(** C5. For every store, key [k] and values [v1], [v2]: [set(k, v1)]
    stores [v1], so that afterwards [get(k)] is [v1] and [has(k)] is true;
    [size] goes up by 1 if [k] was absent and is unchanged if it was
    present; a second [set(k, v2)] leaves [size] unchanged and [get(k)]
    is [v2]. *)
Theorem set_get_has_size (h : heap) (this : loc) (o : obj)
    (k : jsstring) (v1 v2 : value) :
  is_store h this o →
  ∃ (present : bool) (n : Z) (h1 h2 : heap),
    has this k h = Some (present, h) ∧
    size this h = Some (VNum n, h) ∧
    set this (SetKeyValue k v1) h = Some (tt, h1) ∧
    get this k h1 = Some (v1, h1) ∧
    has this k h1 = Some (true, h1) ∧
    size this h1 = Some (VNum (if present then n else n + 1), h1) ∧
    set this (SetKeyValue k v2) h1 = Some (tt, h2) ∧
    size this h2 = Some (VNum (if present then n else n + 1), h2) ∧
    get this k h2 = Some (v2, h2).
Proof.
  intros Hs.
  destruct (setKeyValue_store h this o k v1 Hs) as (h1 & o1 & Hr1 & Hs1 & _ & He1).
  destruct (setKeyValue_store h1 this o1 k v2 Hs1) as (h2 & o2 & Hr2 & Hs2 & _ & He2).
  exists (bool_decide (is_Some (obj_lookup (entries o) k))),
    (Z.of_nat (length (entries o))), h1, h2.
  assert (length (entries o1) =
          if bool_decide (is_Some (obj_lookup (entries o) k))
          then length (entries o) else S (length (entries o))) as Hlen1.
  { rewrite He1, obj_set_length.
    destruct (obj_lookup (entries o) k) eqn:E.
    - by rewrite bool_decide_eq_true_2 by eauto.
    - by rewrite bool_decide_eq_false_2 by (by intros [? ?]). }
  assert (length (entries o2) = length (entries o1)) as Hlen2.
  { by rewrite He2, obj_set_length, He1, obj_lookup_set_eq. }
  assert (VNum (Z.of_nat (length (entries o1))) =
          VNum (if bool_decide (is_Some (obj_lookup (entries o) k))
                then Z.of_nat (length (entries o))
                else Z.of_nat (length (entries o)) + 1)) as Hn.
  { rewrite Hlen1. case_bool_decide; f_equal; lia. }
  split_and!.
  - by apply has_store.
  - by apply size_run.
  - done.
  - erewrite get_store by done. by rewrite He1, obj_lookup_set_eq.
  - erewrite has_store by done. rewrite He1, obj_lookup_set_eq.
    by rewrite bool_decide_eq_true_2 by eauto.
  - erewrite size_run by done. by rewrite Hn.
  - done.
  - erewrite size_run by done. by rewrite Hlen2, Hn.
  - erewrite get_store by done. by rewrite He2, obj_lookup_set_eq.
Qed.

Lemma set_get_has_size_witness :
  ∃ (present : bool) (n : Z) (h1 h2 : heap),
    has 0%nat key_x [store_a1_b2] = Some (present, [store_a1_b2]) ∧
    size 0%nat [store_a1_b2] = Some (VNum n, [store_a1_b2]) ∧
    set 0%nat (SetKeyValue key_x (VNum 1)) [store_a1_b2] = Some (tt, h1) ∧
    get 0%nat key_x h1 = Some (VNum 1, h1) ∧
    has 0%nat key_x h1 = Some (true, h1) ∧
    size 0%nat h1 = Some (VNum (if present then n else n + 1), h1) ∧
    set 0%nat (SetKeyValue key_x (VNum 2)) h1 = Some (tt, h2) ∧
    size 0%nat h2 = Some (VNum (if present then n else n + 1), h2) ∧
    get 0%nat key_x h2 = Some (VNum 2, h2).
Proof.
  apply (set_get_has_size [store_a1_b2] 0%nat store_a1_b2 key_x (VNum 1) (VNum 2)).
  split; [reflexivity|]. apply wf_store_decide; reflexivity.
Defined.

Lemma obj_setKeyValue_names (o : obj) (key : jsstring) (v : value) :
  wf_store o →
  (obj_setKeyValue o key v).*1 =
  match obj_lookup o (encodeKey key) with
  | Some _ => o.*1
  | None => o.*1 ++ [encodeKey key]
  end.
Proof.
  intros [Hd Hl]. unfold obj_setKeyValue. rewrite obj_set_names.
  destruct (obj_lookup o (encodeKey key)) eqn:E; [by rewrite E|].
  erewrite obj_add_length_wf by done.
  rewrite obj_lookup_set_ne, E by (symmetry; apply encodeKey_not_length).
  by rewrite obj_set_names, Hl.
Qed.

(** C6. Every string key is accepted, the names of bookkeeping fields such
    as ["length"] included.  The entry of [k] lives under the encoded key,
    which begins with the prefix character; [length] does not, so it is
    another property.  After [set(k, v)] on any store, [get(k)] is [v],
    [has(k)] is true, [remove(k)] runs, the only own property that may be
    new is the encoded key, and [size] is a number, the number of keys
    that [keys()] lists. *)
Theorem reserved_key_names_accepted (h : heap) (this : loc) (o : obj)
    (k : jsstring) (v : value) :
  is_store h this o →
  is_data (encodeKey k) = true ∧
  is_data str_length = false ∧
  ∃ (h' : heap) (o' : obj) (n : Z) (ks : list jsstring),
    set this (SetKeyValue k v) h = Some (tt, h') ∧
    h' !! this = Some o' ∧
    obj_lookup o' (encodeKey k) = Some v ∧
    (∀ name, name ∈ o'.*1 → name ∈ o.*1 ∨ name = encodeKey k) ∧
    get this k h' = Some (v, h') ∧
    has this k h' = Some (true, h') ∧
    size this h' = Some (VNum n, h') ∧
    keys this h' = Some (ks, h') ∧
    n = Z.of_nat (length ks) ∧
    is_Some (remove this (RemoveKey k) h').
Proof.
  intros Hs. split; [done|]. split; [done|].
  destruct (setKeyValue_store h this o k v Hs) as (h' & o' & Hr & Hs' & Hh' & He).
  exists h', o', (Z.of_nat (length (entries o'))), (decodeKey <$> (entries o').*1).
  assert (o' = obj_setKeyValue o k v) as Ho'.
  { destruct Hs' as [H' _]. rewrite (setKeyValue_run _ _ _ _ _ Hs) in Hr.
    injection Hr as <-. destruct Hs as [H _].
    erewrite heap_lookup_update in H' by done. congruence. }
  split_and!.
  - done.
  - by destruct Hs'.
  - by rewrite <-lookup_entries, He, obj_lookup_set_eq.
  - intros name. rewrite Ho', obj_setKeyValue_names by by destruct Hs.
    destruct (obj_lookup o (encodeKey k)); [by left|].
    intros [?|Hn]%elem_of_app; [by left|].
    apply list_elem_of_singleton in Hn. by right.
  - erewrite get_store by done. by rewrite He, obj_lookup_set_eq.
  - erewrite has_store by done. rewrite He, obj_lookup_set_eq.
    by rewrite bool_decide_eq_true_2 by eauto.
  - by apply size_run.
  - by apply keys_store.
  - by rewrite !length_fmap.
  - erewrite remove_key_run by done. eauto.
Qed.

Lemma reserved_key_names_accepted_witness :
  ∃ (h' : heap) (n : Z) (ks : list jsstring),
    set 0%nat (SetKeyValue str_length (VStr key_x)) [store_a1_b2] = Some (tt, h') ∧
    get 0%nat str_length h' = Some (VStr key_x, h') ∧
    size 0%nat h' = Some (VNum n, h') ∧
    keys 0%nat h' = Some (ks, h') ∧
    n = Z.of_nat (length ks).
Proof.
  destruct (reserved_key_names_accepted [store_a1_b2] 0%nat store_a1_b2
              str_length (VStr key_x))
    as (_ & _ & h' & o' & n & ks & H1 & _ & _ & _ & H2 & _ & H3 & H4 & H5 & _).
  - split; [reflexivity|]. apply wf_store_decide; reflexivity.
  - by exists h', n, ks.
Defined.

(** ** Removing one key: claim C1 *)

(** What [remove(k)] does on a store, whatever [k] holds: the value under
    [k] or [null] is returned; the entry goes, and [size] goes down by 1,
    exactly when [k] is present with a value other than [null]. *)
Lemma remove_key_store (h : heap) (this : loc) (o : obj) (k : jsstring) :
  is_store h this o →
  ∃ (h' : heap) (o' : obj),
    remove this (RemoveKey k) h
      = Some (Removed (default VNull (obj_lookup (entries o) k)), h') ∧
    is_store h' this o' ∧
    h' = <[this := o']> h ∧
    entries o' =
      match obj_lookup (entries o) k with
      | Some data => if not_null data then obj_delete (entries o) k else entries o
      | None => entries o
      end.
Proof.
  intros Hs. destruct (removeByKey_store h this o k Hs) as (h' & o' & Hr & ?).
  exists h', o'. split; [|done]. unfold remove. by erewrite bind_run by done.
Qed.

(** X8. [remove(k)] for a key that is absent or holds a value other than
    [null]: an absent key gives [null] and the same [size]; a present one
    gives its value, [size] goes down by 1 and [has(k)] is false after. *)
Lemma remove_not_null (h : heap) (this : loc) (o : obj) (k : jsstring) :
  is_store h this o →
  get this k h ≠ Some (VNull, h) →
  ∃ (present : bool) (data : value) (n : Z) (h' : heap),
    has this k h = Some (present, h) ∧
    get this k h = Some (data, h) ∧
    size this h = Some (VNum n, h) ∧
    remove this (RemoveKey k) h
      = Some (Removed (if present then data else VNull), h') ∧
    size this h' = Some (VNum (if present then n - 1 else n), h') ∧
    has this k h' = Some (false, h').
Proof.
  intros Hs Hnn.
  destruct (remove_key_store h this o k Hs) as (h' & o' & Hr & Hs' & _ & He).
  pose proof (entries_NoDup o (proj1 (proj2 Hs))) as Hd.
  erewrite get_store in Hnn by done.
  exists (bool_decide (is_Some (obj_lookup (entries o) k))),
    (default VUndefined (obj_lookup (entries o) k)),
    (Z.of_nat (length (entries o))), h'.
  rewrite (has_store h this o), (get_store h this o), (size_run h this o),
    (size_run h' this o'), (has_store h' this o'), Hr, He by done.
  destruct (obj_lookup (entries o) k) as [data|] eqn:E; simpl.
  - assert (not_null data = true) as -> by by destruct data.
    split_and!; try done.
    + do 3 f_equal. apply obj_delete_length in E. lia.
    + by rewrite obj_lookup_delete_eq, bool_decide_eq_false_2
        by (done || by intros [? ?]).
  - by rewrite E.
Qed.

(** C1, at the failing input.  The store is the one of
    [hm = new HashMap(); hm.set('a', null)].  There [remove('a')] returns
    [null], but the key is present and stays: [has('a')] is true before
    and after, and [size] is 1 before and after. *)
Theorem remove_present_null_value :
  (let* hm := HashMap None in
   let* _ := set hm (SetKeyValue key_a VNull) in
   ret hm) [] = Some (0%nat, [store_a_null]) ∧
  has 0%nat key_a [store_a_null] = Some (true, [store_a_null]) ∧
  size 0%nat [store_a_null] = Some (VNum 1, [store_a_null]) ∧
  remove 0%nat (RemoveKey key_a) [store_a_null]
    = Some (Removed VNull, [store_a_null]) ∧
  (let* _ := remove 0%nat (RemoveKey key_a) in has 0%nat key_a) [store_a_null]
    = Some (true, [store_a_null]) ∧
  (let* _ := remove 0%nat (RemoveKey key_a) in size 0%nat) [store_a_null]
    = Some (VNum 1, [store_a_null]).
Proof. by vm_compute. Qed.

(** ** Removing everything: claims C2 and C3 *)

Section removeAll.
Implicit Types (h : heap) (o : obj) (this : loc) (name key : jsstring)
  (v : value).

(** [removeAll] runs on every store.  A property [P] of the object and
    of the names still to visit that every step keeps holds at the end. *)
Lemma removeAll_inv (P : list jsstring → obj → Prop) h this o :
  is_store h this o →
  P (o.*1) o →
  (∀ name names o, wf_store o → P (name :: names) o →
     match obj_lookup o name with
     | Some v =>
         if is_data name then P names (obj_removeByKey o (decodeKey name))
         else P names o
     | None => P names o
     end) →
  ∃ o', removeAll this h = Some (tt, <[this := o']> h) ∧ wf_store o' ∧ P [] o'.
Proof.
  intros [H Hwf] HP Hstep. unfold removeAll. erewrite each_run by done.
  destruct (each_loop_inv
    (λ names h' (_ : unit), ∃ o', h' = <[this := o']> h ∧ wf_store o' ∧ P names o')
    this
    (λ v key (_ : unit),
       let* _ := remove this (RemoveKey key) in ret (VUndefined, tt)))
    with (names := o.*1) (h := h) (l := tt) as ([] & h' & Hr & o' & -> & Hwf' & HP').
  - intros name names h1 [] (o1 & -> & Hwf1 & HP1).
    exists o1. split; [by eapply heap_lookup_update|].
    specialize (Hstep name names o1 Hwf1 HP1).
    destruct (obj_lookup o1 name) as [v|]; [|by exists o1].
    destruct (is_data name); [|by exists o1].
    eexists VUndefined, tt, _. split_and!; [|done|].
    + erewrite bind_run; [done|]. apply remove_key_run.
      split; [by eapply heap_lookup_update|done].
    + eexists. split; [by rewrite heap_update_update|].
      split; [by apply obj_removeByKey_wf|done].
  - exists o. split; [by rewrite heap_update_same|done].
  - by exists o'.
Qed.

Lemma obj_delete_subseteq o name : obj_delete o name ⊆ o.
Proof.
  induction o as [|[n' v'] o IH]; csimpl; [done|]. unfold str_eqb.
  case_bool_decide as E.
  - by apply list_subseteq_cons.
  - intros x [->|Hx]%elem_of_cons; [by left|]. right. by apply IH.
Qed.

Lemma obj_delete_names o name name' :
  NoDup o.*1 → name' ∈ (obj_delete o name).*1 → name' ∈ o.*1 ∧ name' ≠ name.
Proof.
  intros Hd Hin. split; [by eapply obj_delete_names_subseteq|].
  intros ->. apply (obj_lookup_delete_eq o name) in Hd.
  by apply obj_lookup_None in Hd.
Qed.

Lemma plain_store_elem o key v :
  plain_store o → obj_lookup (entries o) key = Some v →
  prefix_free key ∧ v ≠ VNull.
Proof.
  intros Hp Hl%obj_lookup_Some_elem.
  unfold plain_store in Hp. rewrite Forall_forall in Hp. by apply Hp in Hl.
Qed.
End removeAll.

(** C2, as amended.  For every store whose keys are free of the prefix
    character and whose values are not [null], after [removeAll()] the
    store holds no entries: [size] is 0, [keys()] is empty, and [has(k)]
    is false for every key [k]. *)
Theorem removeAll_plain_store (h : heap) (this : loc) (o : obj) :
  is_store h this o →
  plain_store o →
  ∃ h' : heap,
    removeAll this h = Some (tt, h') ∧
    size this h' = Some (VNum 0, h') ∧
    keys this h' = Some ([], h') ∧
    ∀ k, has this k h' = Some (false, h').
Proof.
  intros Hs Hp.
  destruct (removeAll_inv
    (λ names o, plain_store o ∧ ∀ k, k ∈ (entries o).*1 → encodeKey k ∈ names)
    h this o Hs) as (o' & Hr & Hwf' & _ & Hnone).
  - split; [done|]. intros k Hk.
    apply (list_elem_of_fmap_2 encodeKey) in Hk. rewrite entries_names in Hk.
    by apply list_elem_of_filter in Hk as [_ ?].
  - clear. intros name names o Hwf [Hp Hin].
    assert (∀ k, k ∈ (entries o).*1 → encodeKey k ≠ name → encodeKey k ∈ names)
      as Hrest.
    { intros k Hk Hne. apply Hin in Hk. by apply elem_of_cons in Hk as [?|?]. }
    destruct (obj_lookup o name) as [v|] eqn:E.
    + destruct (is_data name) eqn:Ed.
      * apply is_data_user_key in Ed as [u Hu]. apply user_key_Some in Hu as ->.
        rewrite <-lookup_entries in E.
        destruct (plain_store_elem _ _ _ Hp E) as [Hfree Hnn].
        rewrite decodeKey_encodeKey, decodeKey_no_prefix by done.
        unfold plain_store in *.
        rewrite !obj_removeByKey_entries, E by done.
        assert (not_null v = true) as -> by by destruct v.
        split.
        -- unfold plain_store in *. eapply Forall_forall. intros p Hpin.
           rewrite Forall_forall in Hp. apply Hp.
           by apply (obj_delete_subseteq _ u).
        -- intros k [Hk Hne]%obj_delete_names; [|by apply entries_NoDup, Hwf].
           apply Hrest; [done|]. by intros ?%encodeKey_inj.
      * split; [done|]. intros k Hk. apply Hrest; [done|].
        intros <-. by rewrite is_data_encodeKey in Ed.
    + split; [done|]. intros k Hk. apply Hrest; [done|].
      intros <-. rewrite <-lookup_entries in E.
      by apply obj_lookup_None in E.
  - assert (entries o' = []) as He.
    { destruct (entries o') as [|[k v] l] eqn:E; [done|].
      specialize (Hnone k).
      by destruct (not_elem_of_nil (encodeKey k)); apply Hnone; left. }
    assert (is_store (<[this := o']> h) this o') as Hs'.
    { destruct Hs. by eapply is_store_update. }
    eexists. split; [done|]. split_and!.
    + erewrite size_run by done. by rewrite He.
    + erewrite keys_store by done. by rewrite He.
    + intros k. erewrite has_store by done. by rewrite He.
Qed.

Lemma removeAll_plain_store_witness :
  ∃ h' : heap,
    removeAll 0%nat [store_a1_b2] = Some (tt, h') ∧
    size 0%nat h' = Some (VNum 0, h') ∧
    keys 0%nat h' = Some ([], h') ∧
    ∀ k, has 0%nat k h' = Some (false, h').
Proof.
  apply (removeAll_plain_store [store_a1_b2] 0%nat store_a1_b2).
  - split; [reflexivity|]. apply wf_store_decide; reflexivity.
  - repeat constructor; simpl; try discriminate;
      apply prefix_free_decide; reflexivity.
Defined.

(** C2 as stated fails: the store of
    [hm = new HashMap(); hm.set('aåb', 1)] still holds its entry after
    [removeAll()], with [size] 1, since [each] hands the decoded key ["b"]
    to [remove]. *)
Lemma removeAll_keeps_prefixed_key :
  (let* hm := HashMap None in
   let* _ := set hm (SetKeyValue key_a_prefix_b (VNum 1)) in
   ret hm) [] = Some (0%nat, [store_a_prefix_b]) ∧
  removeAll 0%nat [store_a_prefix_b] = Some (tt, [store_a_prefix_b]) ∧
  size 0%nat [store_a_prefix_b] = Some (VNum 1, [store_a_prefix_b]) ∧
  has 0%nat key_a_prefix_b [store_a_prefix_b] = Some (true, [store_a_prefix_b]) ∧
  ¬ ∃ h' : heap,
      removeAll 0%nat [store_a_prefix_b] = Some (tt, h') ∧
      size 0%nat h' = Some (VNum 0, h') ∧
      keys 0%nat h' = Some ([], h') ∧
      ∀ k, has 0%nat k h' = Some (false, h').
Proof.
  split_and!; [by vm_compute..|].
  intros (h' & Hr & Hsz & _). vm_compute in Hr. injection Hr as <-.
  by vm_compute in Hsz.
Qed.

Lemma obj_removeByKey_keeps_null (o : obj) (k key : jsstring) :
  wf_store o →
  obj_lookup o (encodeKey k) = Some VNull →
  obj_lookup (obj_removeByKey o key) (encodeKey k) = Some VNull.
Proof.
  intros [Hd Hl] Hk. unfold obj_removeByKey.
  destruct (obj_lookup o (encodeKey key)) as [data|] eqn:E; [|done].
  destruct (not_null data) eqn:En; [|done].
  assert (encodeKey key ≠ encodeKey k) as Hne.
  { intros Heq. rewrite Heq, Hk in E. by injection E as <-. }
  erewrite obj_add_length_wf;
    [|by rewrite obj_lookup_delete_ne by apply encodeKey_not_length].
  rewrite obj_lookup_set_ne by (symmetry; apply encodeKey_not_length).
  by rewrite obj_lookup_delete_ne.
Qed.

(** C3. For every key [k] whose stored value is [null], [remove(k)]
    returns [null] and leaves the entry in place: the store is unchanged,
    so [has(k)] stays true and [size] is what it was; and after
    [removeAll()] the entry is still there. *)
Theorem null_valued_entry_stays (h : heap) (this : loc) (o : obj) (k : jsstring) :
  is_store h this o →
  get this k h = Some (VNull, h) →
  has this k h = Some (true, h) ∧
  remove this (RemoveKey k) h = Some (Removed VNull, h) ∧
  (let* _ := remove this (RemoveKey k) in has this k) h = Some (true, h) ∧
  (let* _ := remove this (RemoveKey k) in size this) h = size this h ∧
  ∃ h' : heap,
    removeAll this h = Some (tt, h') ∧
    has this k h' = Some (true, h') ∧
    get this k h' = Some (VNull, h').
Proof.
  intros Hs Hget. pose proof Hs as [H Hwf].
  erewrite get_run in Hget by done.
  assert (obj_lookup o (encodeKey k) = Some VNull) as Hk.
  { destruct (obj_lookup o (encodeKey k)) as [v|]; simpl in Hget; congruence. }
  assert (has this k h = Some (true, h)) as Hhas.
  { erewrite has_run by done. by rewrite Hk. }
  assert (remove this (RemoveKey k) h = Some (Removed VNull, h)) as Hrem.
  { erewrite remove_key_run by done. unfold data_removeByKey, obj_removeByKey.
    rewrite Hk. simpl. by rewrite heap_update_same. }
  split_and!; [done|done|by erewrite bind_run by done..|].
  destruct (removeAll_inv (λ _ o, obj_lookup o (encodeKey k) = Some VNull)
              h this o Hs Hk) as (o' & Hr & Hwf' & Hk').
  - clear. intros name names o Hwf Hk.
    destruct (obj_lookup o name); [|done].
    destruct (is_data name); [|done]. by apply obj_removeByKey_keeps_null.
  - eexists. split; [done|].
    erewrite has_run, get_run by by eapply heap_lookup_update.
    by rewrite Hk'.
Qed.

Lemma null_valued_entry_stays_witness :
  remove 0%nat (RemoveKey key_a) [store_a_null]
    = Some (Removed VNull, [store_a_null]) ∧
  ∃ h' : heap,
    removeAll 0%nat [store_a_null] = Some (tt, h') ∧
    has 0%nat key_a h' = Some (true, h').
Proof.
  destruct (null_valued_entry_stays [store_a_null] 0%nat store_a_null key_a)
    as (_ & Hrem & _ & _ & h' & Hall & Hhas & _).
  - split; [reflexivity|]. apply wf_store_decide; reflexivity.
  - reflexivity.
  - split; [exact Hrem|]. by exists h'.
Defined.

(** ** Merging: claim C9 *)

Section merge.
Implicit Types (h : heap) (o : obj) (this : loc) (name key : jsstring)
  (v : value).

Lemma entries_app o1 o2 : entries (o1 ++ o2) = entries o1 ++ entries o2.
Proof. apply omap_app. Qed.

Lemma entries_snoc_data o key v :
  entries (o ++ [(encodeKey key, v)]) = entries o ++ [(key, v)].
Proof. by rewrite entries_app. Qed.

Lemma entries_snoc_other o name v :
  is_data name = false → entries (o ++ [(name, v)]) = entries o.
Proof.
  intros Hn. rewrite entries_app. unfold entries at 2. csimpl.
  destruct (user_key name) eqn:E; [|by rewrite app_nil_r].
  rewrite (proj2 (is_data_user_key name)) in Hn by eauto. done.
Qed.

Lemma foldl_set_lookup (acc l : obj) key :
  NoDup l.*1 →
  obj_lookup (foldl (λ acc p, obj_set acc p.1 p.2) acc l) key =
  match obj_lookup l key with
  | Some v => Some v
  | None => obj_lookup acc key
  end.
Proof.
  revert acc. induction l as [|[k' v'] l IH]; intros acc Hd; [done|].
  apply NoDup_cons in Hd as [Hn Hd]. csimpl. rewrite IH by done.
  unfold str_eqb. case_bool_decide as E.
  - subst. apply obj_lookup_None in Hn. simpl in *.
    by rewrite Hn, obj_lookup_set_eq.
  - destruct (obj_lookup l key); [done|]. by rewrite obj_lookup_set_ne.
Qed.

(** [merge] with a store whose keys are free of the prefix character
    sets its entries, in order, and leaves every other object alone; the
    store merged from is unchanged even when it is the store merged
    into. *)
Lemma merge_run h a b oa ob :
  is_store h a oa → is_store h b ob →
  Forall prefix_free (entries ob).*1 →
  ∃ oa',
    merge a b h = Some (tt, <[a := oa']> h) ∧
    wf_store oa' ∧
    <[a := oa']> h !! b = Some ob ∧
    entries oa' = foldl (λ acc p, obj_set acc p.1 p.2) (entries oa) (entries ob).
Proof.
  intros [Ha Hwfa] [Hb Hwfb] Hfree. unfold merge. erewrite each_run by done.
  destruct (each_loop_inv
    (λ names h' (_ : unit), ∃ oa' o1 o2,
       h' = <[a := oa']> h ∧ wf_store oa' ∧ h' !! b = Some ob ∧
       ob = o1 ++ o2 ∧ names = o2.*1 ∧
       entries oa' = foldl (λ acc p, obj_set acc p.1 p.2) (entries oa) (entries o1))
    b
    (λ v key (_ : unit),
       let* _ := setKeyValue a key v in ret (VUndefined, tt)))
    with (names := ob.*1) (h := h) (l := tt)
    as ([] & h' & Hr & oa' & o1 & o2 & -> & Hwf' & Hb' & Hob & Hnil & He).
  - intros name names h1 [] (oa1 & o1 & o2 & -> & Hwf1 & Hb1 & Hob & Hnames & He1).
    exists ob. split; [done|].
    destruct o2 as [|[name' v] o2]; [done|]. injection Hnames as <- ->.
    assert (obj_lookup ob name = Some v) as ->.
    { apply obj_lookup_elem; [by destruct Hwfb|].
      rewrite Hob. apply elem_of_app. right. by left. }
    destruct (is_data name) eqn:Ed.
    + apply is_data_user_key in Ed as [u Hu]. apply user_key_Some in Hu as ->.
      assert (prefix_free u) as Hu.
      { rewrite Forall_forall in Hfree. apply Hfree.
        rewrite Hob, entries_app, fmap_app. apply elem_of_app. right.
        by left. }
      rewrite decodeKey_encodeKey, decodeKey_no_prefix by done.
      assert (<[a := oa1]> h !! a = Some oa1) as Ha1
        by by eapply heap_lookup_update.
      eexists VUndefined, tt, _. split_and!; [|done|].
      * erewrite bind_run; [done|]. by apply setKeyValue_run.
      * rewrite heap_update_update.
        exists (obj_setKeyValue oa1 u v), (o1 ++ [(encodeKey u, v)]), o2.
        split_and!.
        -- done.
        -- by apply obj_setKeyValue_wf.
        -- destruct (decide (a = b)) as [->|Hne].
           ++ erewrite heap_lookup_update by done. f_equal.
              assert (oa1 = ob) as -> by congruence.
              unfold obj_setKeyValue.
              assert (obj_lookup ob (encodeKey u) = Some v) as Hl.
              { apply obj_lookup_elem; [by destruct Hwfb|].
                rewrite Hob. apply elem_of_app. right. by left. }
              rewrite Hl. by apply obj_set_same.
           ++ rewrite heap_lookup_update_ne by done.
              by rewrite heap_lookup_update_ne in Hb1 by done.
        -- by rewrite <-app_assoc.
        -- done.
        -- rewrite obj_setKeyValue_entries, entries_snoc_data, foldl_app by done.
           by rewrite He1.
    + exists oa1, (o1 ++ [(name, v)]), o2. split_and!; try done.
      * by rewrite <-app_assoc.
      * by rewrite entries_snoc_other.
  - exists oa, [], ob. split_and!; try done. by rewrite heap_update_same.
  - exists oa'. split_and!; try done.
    destruct o2; [|done]. by rewrite app_nil_r in Hob; subst.
Qed.
End merge.

(** C9, as amended.  For every pair of stores [A] and [B] where no key of
    [B] contains the prefix character, [A.merge(B)] sets every entry of
    [B] into [A] in [B]'s iteration order: afterwards [A.get(k)] is
    [B.get(k)] for every key [k] present in [B], the entries of [A] whose
    keys are absent from [B] are unchanged, and [B], like every object
    other than [A], is left unmodified. *)
Theorem merge_prefix_free_keys (h : heap) (a b : loc) (oa ob : obj) :
  is_store h a oa →
  is_store h b ob →
  Forall prefix_free (entries ob).*1 →
  ∃ (h' : heap) (oa' : obj),
    merge a b h = Some (tt, h') ∧
    is_store h' a oa' ∧
    entries oa' = foldl (λ acc p, obj_set acc p.1 p.2) (entries oa) (entries ob) ∧
    (∀ k, has b k h = Some (true, h) →
       ∃ v, get b k h = Some (v, h) ∧
            get a k h' = Some (v, h') ∧ has a k h' = Some (true, h')) ∧
    (∀ k, has b k h = Some (false, h) →
       ∃ v present,
         get a k h = Some (v, h) ∧ get a k h' = Some (v, h') ∧
         has a k h = Some (present, h) ∧ has a k h' = Some (present, h')) ∧
    h' !! b = h !! b ∧
    (∀ l, l ≠ a → h' !! l = h !! l).
Proof.
  intros Hsa Hsb Hfree.
  destruct (merge_run h a b oa ob Hsa Hsb Hfree) as (oa' & Hr & Hwf' & Hb' & He).
  pose proof Hsa as [Ha Hwfa]. pose proof Hsb as [Hb Hwfb].
  assert (is_store (<[a := oa']> h) a oa') as Hsa' by by eapply is_store_update.
  pose proof (entries_NoDup ob (proj1 Hwfb)) as Hdb.
  exists (<[a := oa']> h), oa'. split_and!; try done.
  - intros k Hk. erewrite has_store in Hk by done.
    injection Hk as Hk. apply bool_decide_eq_true_1 in Hk as [v Hv].
    exists v. erewrite !get_store, has_store by done.
    by rewrite He, foldl_set_lookup, Hv.
  - intros k Hk. erewrite has_store in Hk by done.
    injection Hk as Hk. apply bool_decide_eq_false_1 in Hk.
    apply eq_None_not_Some in Hk.
    exists (default VUndefined (obj_lookup (entries oa) k)),
      (bool_decide (is_Some (obj_lookup (entries oa) k))).
    erewrite !get_store, !has_store by done.
    by rewrite He, foldl_set_lookup, Hk.
  - by rewrite Hb'.
  - intros l Hl. by rewrite heap_lookup_update_ne.
Qed.

Lemma merge_prefix_free_keys_witness :
  ∃ h' : heap,
    merge 0%nat 1%nat [store_x1; store_x2_y3] = Some (tt, h') ∧
    get 0%nat key_x h' = Some (VNum 2, h') ∧
    get 0%nat key_y h' = Some (VNum 3, h') ∧
    h' !! 1%nat = Some store_x2_y3.
Proof.
  destruct (merge_prefix_free_keys [store_x1; store_x2_y3] 0%nat 1%nat
              store_x1 store_x2_y3)
    as (h' & oa' & Hr & _ & _ & Hin & _ & Hb & _).
  - split; [reflexivity|]. apply wf_store_decide; reflexivity.
  - split; [reflexivity|]. apply wf_store_decide; reflexivity.
  - repeat constructor; apply prefix_free_decide; reflexivity.
  - exists h'. split; [exact Hr|].
    destruct (Hin key_x) as (vx & Hbx & Hax & _); [reflexivity|].
    destruct (Hin key_y) as (vy & Hby & Hay & _); [reflexivity|].
    injection Hbx as <-. injection Hby as <-. done.
Defined.

(** C9 as stated fails: with [A = {b: 0}] and [B = {'aåb': 1}], after
    [A.merge(B)] the key ["aåb"] of [B] is not in [A], while [A]'s entry
    under ["b"], a key absent from [B], has [B]'s value. *)
Lemma merge_prefixed_key :
  ∃ h' : heap,
    merge 0%nat 1%nat [store_b0; store_a_prefix_b] = Some (tt, h') ∧
    has 1%nat key_a_prefix_b [store_b0; store_a_prefix_b]
      = Some (true, [store_b0; store_a_prefix_b]) ∧
    get 1%nat key_a_prefix_b [store_b0; store_a_prefix_b]
      = Some (VNum 1, [store_b0; store_a_prefix_b]) ∧
    get 0%nat key_a_prefix_b h' = Some (VUndefined, h') ∧
    has 1%nat key_b [store_b0; store_a_prefix_b]
      = Some (false, [store_b0; store_a_prefix_b]) ∧
    get 0%nat key_b [store_b0; store_a_prefix_b]
      = Some (VNum 0, [store_b0; store_a_prefix_b]) ∧
    get 0%nat key_b h' = Some (VNum 1, h') ∧
    ¬ (∀ k, has 1%nat k [store_b0; store_a_prefix_b]
              = Some (true, [store_b0; store_a_prefix_b]) →
            ∃ v, get 1%nat k [store_b0; store_a_prefix_b]
                   = Some (v, [store_b0; store_a_prefix_b]) ∧
                 get 0%nat k h' = Some (v, h')).
Proof.
  eexists. split_and!; try by vm_compute.
  intros H. destruct (H key_a_prefix_b) as (v & Hb & Ha); [by vm_compute|].
  vm_compute in Hb, Ha. congruence.
Qed.

(** ** The order of the keys: claim C10 *)

Section order.
Implicit Types (h : heap) (o : obj) (this : loc) (name key : jsstring)
  (v : value).

Lemma obj_lookup_is_Some o name : is_Some (obj_lookup o name) ↔ name ∈ o.*1.
Proof.
  rewrite <-not_eq_None_Some, obj_lookup_None.
  split; [apply dec_stable | by intros ? ?].
Qed.

Lemma visited_run h this o :
  h !! this = Some o → NoDup o.*1 →
  visited this h = Some (decodeKey <$> (entries o).*1, h).
Proof.
  intros H Hd. unfold visited. erewrite each_run by done.
  rewrite (each_loop_collect (λ _ key, key) this o) by done.
  rewrite (collect_entries (λ _ key, key)) by done.
  by rewrite <-list_fmap_compose.
Qed.

Lemma has_store_elem h this o key :
  is_store h this o →
  has this key h = Some (bool_decide (key ∈ (entries o).*1), h).
Proof.
  intros Hs. erewrite has_store by done. do 2 f_equal.
  apply bool_decide_ext, obj_lookup_is_Some.
Qed.

Lemma set_each_store h this o kvs :
  is_store h this o →
  ∃ h' o',
    set_each this kvs h = Some (tt, h') ∧
    is_store h' this o' ∧
    (entries o').*1 = insertion_order (entries o).*1 kvs.*1.
Proof.
  revert h o. induction kvs as [|[k v] kvs IH]; intros h o Hs.
  - by exists h, o.
  - destruct (setKeyValue_store h this o k v Hs) as (h1 & o1 & Hr1 & Hs1 & _ & He1).
    destruct (IH h1 o1 Hs1) as (h' & o' & Hr & Hs' & He).
    exists h', o'. split_and!; [|done|].
    + cbn [set_each]. by erewrite bind_run by done.
    + rewrite He, He1, obj_set_names. csimpl. f_equal.
      destruct (obj_lookup (entries o) k) eqn:E.
      * rewrite bool_decide_eq_true_2; [done|].
        apply obj_lookup_is_Some. by rewrite E.
      * rewrite bool_decide_eq_false_2; [done|]. by apply obj_lookup_None.
Qed.
Lemma filter_Forall_id {A} (P : A → Prop) `{∀ x, Decision (P x)} (l : list A) :
  Forall P l → filter P l = l.
Proof.
  induction 1 as [|x l Hx Hl IH]; [done|].
  by rewrite filter_cons_True, IH.
Qed.

Lemma obj_delete_names_filter (o : obj) (name : jsstring) :
  NoDup o.*1 → (obj_delete o name).*1 = filter (λ n, n ≠ name) o.*1.
Proof.
  induction o as [|[n' v'] o IH]; [done|]. csimpl. unfold str_eqb.
  intros [Hn Hd]%NoDup_cons. case_bool_decide as E.
  - subst. rewrite filter_cons_False by (by intros ?). symmetry.
    apply filter_Forall_id, Forall_forall. by intros x Hx ->.
  - rewrite filter_cons_True by done. csimpl. by rewrite IH.
Qed.

End order.

(** C10. For every store, [keys()] returns the decoded keys of the
    entries present, in the order in which [each] visits them.  That
    order is the order of first insertion: after any run of [set] calls
    the keys are the ones present before, in their places, followed by
    the new ones in the order in which each was first set; setting a
    present key again moves nothing, and removing a key leaves the others
    in their order. *)
Theorem keys_first_insertion_order (h : heap) (this : loc) (o : obj)
    (kvs : list (jsstring * value)) :
  is_store h this o →
  ∃ (present : list jsstring) (h' : heap),
    NoDup present ∧
    (∀ k, has this k h = Some (bool_decide (k ∈ present), h)) ∧
    keys this h = Some (decodeKey <$> present, h) ∧
    visited this h = Some (decodeKey <$> present, h) ∧
    set_each this kvs h = Some (tt, h') ∧
    (∀ k, has this k h' =
          Some (bool_decide (k ∈ insertion_order present kvs.*1), h')) ∧
    keys this h' = Some (decodeKey <$> insertion_order present kvs.*1, h') ∧
    visited this h' = Some (decodeKey <$> insertion_order present kvs.*1, h') ∧
    (∀ k v, k ∈ present →
       ∃ h1, set this (SetKeyValue k v) h = Some (tt, h1) ∧
             keys this h1 = Some (decodeKey <$> present, h1)) ∧
    (∀ k, ∃ data h1,
       remove this (RemoveKey k) h = Some (Removed data, h1) ∧
       keys this h1 =
         Some (decodeKey <$> (if not_null data
                              then filter (λ k', k' ≠ k) present
                              else present), h1)).
Proof.
  intros Hs.
  destruct (set_each_store h this o kvs Hs) as (h' & o' & Hr & Hs' & He).
  exists (entries o).*1, h'. rewrite <-He. split_and!.
  - apply entries_NoDup. by destruct Hs as [_ []].
  - intros k. by apply has_store_elem.
  - by apply keys_store.
  - destruct Hs as [? []]. by apply visited_run.
  - done.
  - intros k. by apply has_store_elem.
  - by apply keys_store.
  - destruct Hs' as [? []]. by apply visited_run.
  - intros k v Hk.
    destruct (setKeyValue_store h this o k v Hs) as (h1 & o1 & Hr1 & Hs1 & _ & He1).
    exists h1. split; [done|]. erewrite keys_store by done.
    rewrite He1, obj_set_names.
    apply obj_lookup_is_Some in Hk as [v' ->]. done.
  - intros k.
    destruct (remove_key_store h this o k Hs) as (h1 & o1 & Hr1 & Hs1 & _ & He1).
    exists (default VNull (obj_lookup (entries o) k)), h1.
    split; [done|]. erewrite keys_store by done. rewrite He1.
    pose proof (entries_NoDup o (proj1 (proj2 Hs))) as Hd.
    destruct (obj_lookup (entries o) k) as [data|] eqn:E; simpl.
    + destruct (not_null data); [|done]. by rewrite obj_delete_names_filter.
    + done.
Qed.

Lemma keys_first_insertion_order_witness :
  ∃ h' : heap,
    set_each 0%nat
      [(key_b, VNum 1); (key_a, VNum 2); (key_b, VNum 3); (key_x, VNull)]
      [store_empty] = Some (tt, h') ∧
    keys 0%nat h' = Some ([key_b; key_a; key_x], h') ∧
    visited 0%nat h' = Some ([key_b; key_a; key_x], h').
Proof.
  destruct (keys_first_insertion_order [store_empty] 0%nat store_empty
              [(key_b, VNum 1); (key_a, VNum 2); (key_b, VNum 3); (key_x, VNull)])
    as (present & h' & _ & Hhas & Hkeys & _ & Hr & _ & Hkeys' & Hvis' & _).
  - split; [reflexivity|]. apply wf_store_decide; reflexivity.
  - assert (present = []) as ->.
    { vm_compute in Hkeys. injection Hkeys as Hkeys.
      by destruct present. }
    by exists h'.
Defined.

(** ** The count invariant: claim C4 *)

Section hoare.
Implicit Types (h : heap) (P : heap → Prop).

Lemma hoare_ret {A} P (a : A) (Q : A → heap → Prop) :
  (∀ h, P h → Q a h) → hoare P (ret a) Q.
Proof. intros H h HP. exists a, h. split; [done|]. by apply H. Qed.

Lemma hoare_bind {A B} P (m : M A) (f : A → M B) Q R :
  hoare P m Q → (∀ a, hoare (Q a) (f a) R) → hoare P (bind m f) R.
Proof.
  intros Hm Hf h HP. destruct (Hm h HP) as (a & h1 & Hr & HQ).
  destruct (Hf a h1 HQ) as (b & h2 & Hr2 & HR).
  exists b, h2. split; [|done]. by erewrite bind_run by done.
Qed.

Lemma hoare_post {A} P (m : M A) (Q Q' : A → heap → Prop) :
  hoare P m Q → (∀ a h, Q a h → Q' a h) → hoare P m Q'.
Proof.
  intros Hm HQ h HP. destruct (Hm h HP) as (a & h1 & Hr & HQ1).
  exists a, h1. split; [done|]. by apply HQ.
Qed.

Lemma hoare_deref P (l : loc) :
  (∀ h, P h → is_Some (h !! l)) → hoare P (deref l) (λ _, P).
Proof.
  intros H h HP. destruct (H h HP) as [o Ho].
  exists o, h. split; [by apply deref_run | done].
Qed.

Lemma hoare_forIn {L} P (obj : loc)
    (iteratee : value → jsstring → L → M (value * L)) :
  (∀ h, P h → is_Some (h !! obj)) →
  (∀ v key l, hoare P (iteratee v key l) (λ _, P)) →
  ∀ names l, hoare P (forIn obj iteratee names l) (λ _, P).
Proof.
  intros Hobj Hit names. induction names as [|name names IH]; intros l.
  - by apply hoare_ret.
  - cbn [forIn]. eapply hoare_bind; [by apply hoare_deref|].
    intros o. destruct (obj_lookup o name) as [v|]; [|by apply IH].
    eapply hoare_bind; [by apply Hit|].
    intros [r l']. destruct (strict_false r); [by apply hoare_ret | by apply IH].
Qed.

Lemma hoare_forEachOwnProperties {L} P (obj : loc)
    (iteratee : value → jsstring → L → M (value * L)) l :
  (∀ h, P h → is_Some (h !! obj)) →
  (∀ v key l, hoare P (iteratee v key l) (λ _, P)) →
  hoare P (forEachOwnProperties obj iteratee l) (λ _, P).
Proof.
  intros Hobj Hit. unfold forEachOwnProperties.
  eapply hoare_bind; [by apply hoare_deref|].
  intros o. by apply hoare_forIn.
Qed.

Lemma hoare_forEach {A L} P (arr : list A) (iteratee : A → L → M (value * L)) :
  (∀ x l, hoare P (iteratee x l) (λ _, P)) →
  ∀ l, hoare P (forEach arr iteratee l) (λ _, P).
Proof.
  intros Hit. induction arr as [|x arr IH]; intros l.
  - by apply hoare_ret.
  - cbn [forEach]. eapply hoare_bind; [by apply Hit|].
    intros [r l']. destruct (strict_false r); [by apply hoare_ret | by apply IH].
Qed.

Lemma hoare_each {L} P (this : loc)
    (iteratee : value → jsstring → L → M (value * L)) l :
  (∀ h, P h → is_Some (h !! this)) →
  (∀ v key l, hoare P (iteratee v key l) (λ _, P)) →
  hoare P (each this iteratee l) (λ _, P).
Proof.
  intros Hthis Hit. unfold each.
  eapply hoare_bind.
  - apply hoare_forEachOwnProperties; [done|].
    intros v key [flag l0].
    eapply hoare_bind.
    + instantiate (1 := λ _, P).
      destruct (str_eqb (charAt0 key) _MAPDATAPREFIX);
        [by apply Hit | by apply hoare_ret].
    + intros [flag' l1]. destruct (strict_false flag'); by apply hoare_ret.
  - intros [flag l']. by apply hoare_ret.
Qed.
End hoare.

Section programs.
Context (records n : nat).
Implicit Types (h : heap) (o : obj) (this : loc) (key : jsstring) (v : value).

Lemma stores_ok_store h this :
  stores_ok records n h → is_store_ref records n this = true →
  ∃ o, is_store h this o.
Proof.
  intros [Hlen Hwf] [Hge Hlt]%andb_true_iff.
  apply Nat.leb_le in Hge. apply Nat.ltb_lt in Hlt.
  destruct (lookup_lt_is_Some_2 h this) as [o Ho]; [lia|].
  exists o. split; [done|]. by eapply Hwf.
Qed.

Lemma stores_ok_ref h l :
  stores_ok records n h → is_ref n l = true → is_Some (h !! l).
Proof.
  intros [Hlen _] Hlt%Nat.ltb_lt. apply lookup_lt_is_Some_2. lia.
Qed.

Lemma stores_ok_store_ref h this :
  stores_ok records n h → is_store_ref records n this = true →
  is_Some (h !! this).
Proof. intros Hok Hthis. destruct (stores_ok_store h this) as [o [? _]]; eauto. Qed.

Lemma stores_ok_update h this o' :
  stores_ok records n h → wf_store o' → stores_ok records n (<[this := o']> h).
Proof.
  intros [Hlen Hwf] Hwf'. split; [by rewrite length_insert|].
  intros l o Hl. destruct (decide (this = l)) as [->|Hne].
  - intros Ho. assert (is_Some (h !! l)) as [o0 Ho0].
    { apply lookup_lt_is_Some. rewrite <-(length_insert h l o').
      by eapply lookup_lt_Some. }
    erewrite heap_lookup_update in Ho by done. congruence.
  - rewrite heap_lookup_update_ne by done. by apply Hwf.
Qed.

Lemma hoare_setKeyValue this key v :
  is_store_ref records n this = true →
  hoare (stores_ok records n) (setKeyValue this key v) (λ _, stores_ok records n).
Proof.
  intros Hthis h Hok. destruct (stores_ok_store h this Hok Hthis) as [o Hs].
  eexists tt, _. split; [by apply setKeyValue_run|].
  apply stores_ok_update; [done|]. apply obj_setKeyValue_wf. by destruct Hs.
Qed.

Lemma hoare_removeByKey this key :
  is_store_ref records n this = true →
  hoare (stores_ok records n) (removeByKey this key) (λ _, stores_ok records n).
Proof.
  intros Hthis h Hok. destruct (stores_ok_store h this Hok Hthis) as [o Hs].
  eexists _, _. split; [by apply removeByKey_run|].
  apply stores_ok_update; [done|]. apply obj_removeByKey_wf. by destruct Hs.
Qed.

Lemma hoare_setObject this obj :
  is_store_ref records n this = true → is_ref n obj = true →
  hoare (stores_ok records n) (setObject this obj) (λ _, stores_ok records n).
Proof.
  intros Hthis Hobj. unfold setObject.
  apply hoare_forEachOwnProperties.
  - intros h Hok. by eapply stores_ok_ref.
  - intros v key []. eapply hoare_bind; [by apply hoare_setKeyValue|].
    intros []. by apply hoare_ret.
Qed.

Lemma hoare_merge this hashMap :
  is_store_ref records n this = true → is_store_ref records n hashMap = true →
  hoare (stores_ok records n) (merge this hashMap) (λ _, stores_ok records n).
Proof.
  intros Hthis Hother. unfold merge. apply hoare_each.
  - intros h Hok. by eapply stores_ok_store_ref.
  - intros v key []. eapply hoare_bind; [by apply hoare_setKeyValue|].
    intros []. by apply hoare_ret.
Qed.

Lemma hoare_removeByKeyArray this keyArray :
  is_store_ref records n this = true →
  hoare (stores_ok records n) (removeByKeyArray this keyArray)
    (λ _, stores_ok records n).
Proof.
  intros Hthis. unfold removeByKeyArray. apply hoare_forEach.
  intros key data. eapply hoare_bind; [by apply hoare_removeByKey|].
  intros d. by apply hoare_ret.
Qed.

Lemma hoare_remove this arguments :
  is_store_ref records n this = true →
  hoare (stores_ok records n) (remove this arguments) (λ _, stores_ok records n).
Proof.
  intros Hthis. destruct arguments; cbn [remove].
  - eapply hoare_bind; [by apply hoare_removeByKey|].
    intros d. by apply hoare_ret.
  - eapply hoare_bind; [by apply hoare_removeByKeyArray|].
    intros d. by apply hoare_ret.
  - eapply hoare_bind; [by apply hoare_removeByKeyArray|].
    intros d. by apply hoare_ret.
Qed.

Lemma hoare_removeAll this :
  is_store_ref records n this = true →
  hoare (stores_ok records n) (removeAll this) (λ _, stores_ok records n).
Proof.
  intros Hthis. unfold removeAll. apply hoare_each.
  - intros h Hok. by eapply stores_ok_store_ref.
  - intros v key []. eapply hoare_bind; [by apply hoare_remove|].
    intros r. by apply hoare_ret.
Qed.
End programs.

Section run_ops.
Implicit Types (h : heap) (o : obj) (this : loc) (records n : nat).

Lemma store_empty_wf : wf_store store_empty.
Proof. apply wf_store_decide; reflexivity. Qed.

Lemma stores_ok_alloc records n h o :
  stores_ok records n h → wf_store o → stores_ok records (S n) (h ++ [o]).
Proof.
  intros [Hlen Hwf] Hwfo. split; [rewrite length_app; simpl; lia|].
  intros l o' Hl Ho'. destruct (decide (l < n)%nat) as [Hlt|Hge].
  - rewrite lookup_app_l in Ho' by lia. by eapply Hwf.
  - rewrite lookup_app_r in Ho' by lia.
    destruct (l - length h)%nat as [|i] eqn:E; simpl in Ho'; [|done].
    by injection Ho' as <-.
Qed.

Lemma is_ref_S n l : is_ref n l = true → is_ref (S n) l = true.
Proof. unfold is_ref. rewrite !Nat.ltb_lt. lia. Qed.

Lemma is_store_ref_S records n l :
  is_store_ref records n l = true → is_store_ref records (S n) l = true.
Proof.
  unfold is_store_ref. rewrite !andb_true_iff, !Nat.ltb_lt. intuition lia.
Qed.

Lemma hoare_HashMap records n (obj : option loc) :
  (records ≤ n)%nat →
  op_scoped records n (OpNew obj) = true →
  hoare (stores_ok records n) (HashMap obj) (λ _, stores_ok records (S n)).
Proof.
  intros Hn Hobj h Hok. pose proof Hok as [Hlen _].
  assert (stores_ok records (S n) (h ++ [store_empty])) as Hok'
    by by apply stores_ok_alloc, store_empty_wf.
  assert (is_store_ref records (S n) n = true) as Hthis.
  { unfold is_store_ref. apply andb_true_iff.
    rewrite Nat.leb_le, Nat.ltb_lt. lia. }
  unfold HashMap. rewrite bind_unfold. unfold alloc at 1.
  erewrite bind_run; [|apply put_prop_run; by apply list_lookup_middle].
  set (h1 := <[length h := _]> _).
  assert (h1 = h ++ [store_empty]) as ->
    by (subst h1; by rewrite insert_app_r_alt, Nat.sub_diag).
  rewrite Hlen. destruct obj as [obj|].
  - destruct (hoare_setObject records (S n) n obj Hthis (is_ref_S _ _ Hobj)
                _ Hok') as ([] & h3 & Hr & Hok3).
    erewrite bind_run by done. by eexists _, _.
  - erewrite bind_run by done. by eexists _, _.
Qed.

Lemma hoare_run_op records n (c : op) :
  (records ≤ n)%nat →
  op_scoped records n c = true →
  hoare (stores_ok records n) (run_op c)
    (λ _, stores_ok records (match c with OpNew _ => S n | _ => n end)).
Proof.
  intros Hn Hc. destruct c as [obj|this [key v|obj]|this obj|this other
    |this arguments|this key|this keyArray|this]; cbn [run_op set].
  - eapply hoare_bind; [by apply hoare_HashMap|]. intros this.
    by apply hoare_ret.
  - by apply hoare_setKeyValue.
  - apply andb_true_iff in Hc as [? ?]. by apply hoare_setObject.
  - apply andb_true_iff in Hc as [? ?]. by apply hoare_setObject.
  - apply andb_true_iff in Hc as [? ?]. by apply hoare_merge.
  - eapply hoare_bind; [by apply hoare_remove|]. intros r. by apply hoare_ret.
  - eapply hoare_bind; [by apply hoare_removeByKey|]. intros r.
    by apply hoare_ret.
  - eapply hoare_bind; [by apply hoare_removeByKeyArray|]. intros r.
    by apply hoare_ret.
  - by apply hoare_removeAll.
Qed.

Lemma hoare_run_ops records (ops : list op) :
  ∀ n, (records ≤ n)%nat →
    ops_scoped records n ops = true →
    hoare (stores_ok records n) (run_ops ops)
      (λ _ h, stores_ok records (length h) h).
Proof.
  induction ops as [|c ops IH]; intros n Hn Hops.
  - apply hoare_ret. intros h [<- Hwf]. by split.
  - apply andb_true_iff in Hops as [Hc Hops]. cbn [run_ops].
    eapply hoare_bind; [by apply hoare_run_op|].
    intros []. apply IH; [|done]. destruct c; lia.
Qed.
End run_ops.

(** C4. After any finite sequence of [set], [setObject], [merge],
    [remove], [removeByKeyArray] and [removeAll] operations on stores made
    by [new HashMap], the program has run and, for every store, [size] is
    the number of distinct keys present, which is the length of
    [keys()]. *)
Theorem size_counts_keys (records : heap) (ops : list op) :
  ops_scoped (length records) (length records) ops = true →
  ∃ h : heap,
    run_ops ops records = Some (tt, h) ∧
    ∀ this, (length records ≤ this < length h)%nat →
      ∃ (n : Z) (ks present : list jsstring),
        size this h = Some (VNum n, h) ∧
        keys this h = Some (ks, h) ∧
        n = Z.of_nat (length ks) ∧
        NoDup present ∧
        (∀ k, has this k h = Some (bool_decide (k ∈ present), h)) ∧
        n = Z.of_nat (length present).
Proof.
  intros Hops.
  destruct (hoare_run_ops (length records) ops (length records)
              (le_n _) Hops records) as ([] & h & Hr & Hok).
  { split; [done|]. intros l o Hl Ho. apply lookup_lt_Some in Ho. lia. }
  exists h. split; [done|]. intros this [Hge Hlt].
  destruct (stores_ok_store (length records) (length h) h this Hok) as [o Hs].
  { unfold is_store_ref. apply andb_true_iff. by rewrite Nat.leb_le, Nat.ltb_lt. }
  exists (Z.of_nat (length (entries o))), (decodeKey <$> (entries o).*1),
    (entries o).*1.
  split_and!.
  - by apply size_run.
  - by apply keys_store.
  - by rewrite !length_fmap.
  - apply entries_NoDup. by destruct Hs as [_ []].
  - intros k. by apply has_store_elem.
  - by rewrite length_fmap.
Qed.

Lemma size_counts_keys_witness :
  ∃ h : heap,
    run_ops sample_program [record_a1_b2] = Some (tt, h) ∧
    ∀ this, (1 ≤ this < length h)%nat →
      ∃ (n : Z) (ks present : list jsstring),
        size this h = Some (VNum n, h) ∧
        keys this h = Some (ks, h) ∧
        n = Z.of_nat (length ks) ∧
        NoDup present ∧
        (∀ k, has this k h = Some (bool_decide (k ∈ present), h)) ∧
        n = Z.of_nat (length present).
Proof.
  apply (size_counts_keys [record_a1_b2] sample_program). reflexivity.
Defined.

(** ** Iterating without effects: early exit, [find], [toArray] *)

Section each_pure.
Context {L : Type}.
Implicit Types (h : heap) (o : obj) (this : loc) (l : L)
  (step : value → jsstring → L → value * L).

Lemma each_loop_pure step this o h (o' : obj) l :
  h !! this = Some o → NoDup o.*1 → o' ⊆ o →
  each_loop this (λ v key l, ret (step v key l)) o'.*1 l h
  = Some (each_fold step (entries o') l, h).
Proof.
  intros H Hd. revert l. induction o' as [|[n' v'] o' IH]; intros l Hsub; [done|].
  csimpl. erewrite bind_run by by apply deref_run.
  rewrite (obj_lookup_elem o n' v') by (done || by apply Hsub; left).
  assert (o' ⊆ o) as Hsub' by (by intros x Hx; apply Hsub; right).
  unfold entries. csimpl. fold (entries o').
  destruct (user_key n') as [k|] eqn:E; csimpl.
  - rewrite (proj2 (is_data_user_key n')) by eauto.
    apply user_key_Some in E as ->. rewrite decodeKey_encodeKey.
    erewrite bind_run by done.
    destruct (step v' (decodeKey k) l) as [r l'].
    destruct (strict_false r); [done|]. by apply IH.
  - destruct (is_data n') eqn:Ed; [|by apply IH].
    apply is_data_user_key in Ed as [? ?]. congruence.
Qed.

Lemma each_pure step this o h l :
  h !! this = Some o → NoDup o.*1 →
  each this (λ v key l, ret (step v key l)) l h
  = Some (each_fold step (entries o) l, h).
Proof.
  intros H Hd. erewrite each_run by done. by apply (each_loop_pure step this o).
Qed.
End each_pure.

Lemma each_fold_record (r : value → jsstring → value) (es : obj) (acc : list jsstring) :
  each_fold (λ v key acc, (r v key, acc ++ [key])) es acc
  = acc ++ (decodeKey <$>
      (take_through (λ p, strict_false (r p.2 (decodeKey p.1))) es).*1).
Proof.
  revert acc. induction es as [|[k v] es IH]; intros acc; csimpl.
  - by rewrite app_nil_r.
  - destruct (strict_false (r v (decodeKey k))); csimpl; [done|].
    by rewrite IH, <-app_assoc.
Qed.

Lemma each_fold_find (c : value → jsstring → value) (es : obj) (founds : list value) :
  each_fold (λ v key founds,
               (VUndefined, if truthy (c v key) then founds ++ [v] else founds))
    es founds
  = founds ++ (List.filter (λ p, truthy (c p.2 (decodeKey p.1))) es).*2.
Proof.
  revert founds. induction es as [|[k v] es IH]; intros founds; csimpl.
  - by rewrite app_nil_r.
  - rewrite IH. destruct (truthy (c v (decodeKey k))) eqn:E; csimpl; [|done].
    by rewrite <-app_assoc.
Qed.

(** X1. [each] stops at the first entry for which the callback returns
    [false], and only [false]: the callback has then been called on the
    entries up to and including that one, in order, each with its decoded
    key, and the store is unchanged.  [r] is what the callback returns. *)
Theorem each_stops_at_false (h : heap) (this : loc) (o : obj)
    (r : value → jsstring → value) :
  is_store h this o →
  each this (λ v key called, ret (r v key, called ++ [key])) [] h
  = Some (decodeKey <$>
            (take_through (λ p, strict_false (r p.2 (decodeKey p.1)))
               (entries o)).*1, h).
Proof.
  intros [H [Hd _]].
  rewrite (each_pure (λ v key called, (r v key, called ++ [key]))) with (o := o)
    by done.
  by rewrite each_fold_record.
Qed.

Lemma each_stops_at_false_witness :
  each 0%nat
    (λ v key called,
       ret (if bool_decide (key = key_b) then VBool false else VNull,
            called ++ [key])) [] [store_a1_b2_x3]
  = Some ([key_a; key_b], [store_a1_b2_x3]).
Proof.
  etransitivity.
  - apply (each_stops_at_false [store_a1_b2_x3] 0%nat store_a1_b2_x3
             (λ v key, if bool_decide (key = key_b) then VBool false else VNull)).
    split; [reflexivity|]. apply wf_store_decide; reflexivity.
  - vm_compute. reflexivity.
Defined.

(** X2. [find] with a condition without effects returns, in the order of
    the store, the values of the entries for which the condition is
    truthy; the condition is given the decoded key; the store is
    unchanged. *)
Theorem find_filters_values (h : heap) (this : loc) (o : obj)
    (c : value → jsstring → value) :
  is_store h this o →
  find this (λ v key, ret (c v key)) h
  = Some ((List.filter (λ p, truthy (c p.2 (decodeKey p.1))) (entries o)).*2, h).
Proof.
  intros [H [Hd _]]. unfold find.
  rewrite (each_pure
             (λ v key founds,
                (VUndefined, if truthy (c v key) then founds ++ [v] else founds)))
    with (o := o); [|done..].
  by rewrite each_fold_find.
Qed.

Lemma find_filters_values_witness :
  find 0%nat (λ v key, ret (VBool (bool_decide (key ≠ key_b)))) [store_a1_b2_x3]
  = Some ([VNum 1; VNum 3], [store_a1_b2_x3]).
Proof.
  etransitivity.
  - apply (find_filters_values [store_a1_b2_x3] 0%nat store_a1_b2_x3
             (λ v key, VBool (bool_decide (key ≠ key_b)))).
    split; [reflexivity|]. apply wf_store_decide; reflexivity.
  - vm_compute. reflexivity.
Defined.

(** ** [keys] and [toArray] together *)

Lemma entries_lookup_index (o : obj) (i : nat) (k : jsstring) (v : value) :
  NoDup o.*1 → entries o !! i = Some (k, v) → obj_lookup (entries o) k = Some v.
Proof.
  intros Hd Hi. apply obj_lookup_elem; [by apply entries_NoDup|].
  by eapply list_elem_of_lookup_2.
Qed.

Lemma fmap_decodeKey_prefix_free (ks : list jsstring) :
  Forall prefix_free ks → decodeKey <$> ks = ks.
Proof.
  induction 1 as [|k ks Hk _ IH]; [done|].
  csimpl. by rewrite IH, decodeKey_no_prefix.
Qed.

(** X3. [keys()] and [toArray()] go through the entries in the same
    order: they have the same length, which is [size]; and on a store
    whose keys are free of the prefix character the value at index [i] of
    [toArray()] is what [get] returns for the key at index [i] of
    [keys()]. *)
Theorem keys_toArray_aligned (h : heap) (this : loc) (o : obj) :
  is_store h this o →
  ∃ (ks : list jsstring) (vs : list value),
    keys this h = Some (ks, h) ∧
    toArray this h = Some (vs, h) ∧
    length ks = length vs ∧
    size this h = Some (VNum (Z.of_nat (length vs)), h) ∧
    (Forall prefix_free (entries o).*1 →
     ∀ i k, ks !! i = Some k →
       ∃ v, vs !! i = Some v ∧ get this k h = Some (v, h)).
Proof.
  intros Hs. pose proof Hs as [H [Hd _]].
  exists (decodeKey <$> (entries o).*1), (entries o).*2. split_and!.
  - by apply keys_store.
  - by apply toArray_run.
  - by rewrite !length_fmap.
  - erewrite size_run by done. by rewrite length_fmap.
  - intros Hfree i k Hi. rewrite fmap_decodeKey_prefix_free in Hi by done.
    apply list_lookup_fmap_Some_1 in Hi as ([k' v] & -> & Hi).
    exists v. split; [by rewrite list_lookup_fmap, Hi|].
    erewrite get_store by done. by erewrite entries_lookup_index.
Qed.

Lemma keys_toArray_aligned_witness :
  ∃ (ks : list jsstring) (vs : list value),
    keys 0%nat [store_a1_b2_x3] = Some (ks, [store_a1_b2_x3]) ∧
    toArray 0%nat [store_a1_b2_x3] = Some (vs, [store_a1_b2_x3]) ∧
    length ks = length vs ∧
    ∀ i k, ks !! i = Some k →
      ∃ v, vs !! i = Some v ∧
           get 0%nat k [store_a1_b2_x3] = Some (v, [store_a1_b2_x3]).
Proof.
  destruct (keys_toArray_aligned [store_a1_b2_x3] 0%nat store_a1_b2_x3)
    as (ks & vs & Hk & Hv & Hlen & _ & Hget).
  - split; [reflexivity|]. apply wf_store_decide; reflexivity.
  - exists ks, vs. split_and!; [done..|]. apply Hget.
    repeat constructor; apply prefix_free_decide; reflexivity.
Defined.

(** X4. [keys()] is the list of the decoded keys of the entries: none of
    its elements contains the prefix character, the decoded key of every
    key present is in it, and every element is the decoded key of a key
    present.  So a key that is free of the prefix character is in
    [keys()] exactly when [has] says so. *)
Theorem keys_are_decoded_present_keys (h : heap) (this : loc) (o : obj) :
  is_store h this o →
  ∃ ks : list jsstring,
    keys this h = Some (ks, h) ∧
    Forall prefix_free ks ∧
    (∀ k, has this k h = Some (true, h) → decodeKey k ∈ ks) ∧
    (∀ k', k' ∈ ks → ∃ k, has this k h = Some (true, h) ∧ decodeKey k = k') ∧
    (∀ k, prefix_free k → has this k h = Some (true, h) → k ∈ ks).
Proof.
  intros Hs. exists (decodeKey <$> (entries o).*1).
  assert (∀ k, has this k h = Some (true, h) ↔ k ∈ (entries o).*1) as Hhas.
  { intros k. erewrite has_store_elem by done. split.
    - intros [= Hk]. by apply bool_decide_eq_true_1 in Hk.
    - intros Hk. by rewrite bool_decide_eq_true_2. }
  split_and!.
  - by apply keys_store.
  - apply Forall_fmap, Forall_forall. intros k _. apply decodeKey_clean.
  - intros k Hk%Hhas. by apply list_elem_of_fmap_2.
  - intros k' (k & -> & Hk)%list_elem_of_fmap. exists k. by rewrite Hhas.
  - intros k Hfree Hk%Hhas. rewrite <-(decodeKey_no_prefix k) by done.
    by apply list_elem_of_fmap_2.
Qed.

Lemma keys_are_decoded_present_keys_witness :
  ∃ ks : list jsstring,
    keys 0%nat [store_a_prefix_b] = Some (ks, [store_a_prefix_b]) ∧
    Forall prefix_free ks ∧
    key_b ∈ ks.
Proof.
  destruct (keys_are_decoded_present_keys [store_a_prefix_b] 0%nat store_a_prefix_b)
    as (ks & Hk & Hfree & Hin & _).
  - split; [reflexivity|]. apply wf_store_decide; reflexivity.
  - exists ks. split_and!; [done..|].
    apply (Hin key_a_prefix_b). reflexivity.
Defined.

(** ** One key at a time: what [set] and [remove] leave alone *)

Lemma obj_set_set (o : obj) (name : jsstring) (v v' : value) :
  obj_set (obj_set o name v) name v' = obj_set o name v'.
Proof.
  induction o as [|[n' w] o IH]; csimpl; unfold str_eqb.
  - by rewrite bool_decide_eq_true_2.
  - case_bool_decide as E; csimpl; unfold str_eqb.
    + by rewrite bool_decide_eq_true_2.
    + rewrite bool_decide_eq_false_2 by done. by rewrite IH.
Qed.

Lemma obj_delete_set_absent (o : obj) (name : jsstring) (v : value) :
  obj_lookup o name = None → obj_delete (obj_set o name v) name = o.
Proof.
  induction o as [|[n' w] o IH]; csimpl; unfold str_eqb.
  - by rewrite bool_decide_eq_true_2.
  - case_bool_decide as E; [done|]. intros Hn. csimpl. unfold str_eqb.
    rewrite bool_decide_eq_false_2 by done. by rewrite IH.
Qed.

Lemma obj_removeByKey_setKeyValue (o : obj) (key : jsstring) (v : value) :
  wf_store o → obj_lookup o (encodeKey key) = None → not_null v = true →
  obj_removeByKey (obj_setKeyValue o key v) key = o.
Proof.
  intros [Hd Hl] Hk Hv. unfold obj_setKeyValue, obj_removeByKey.
  rewrite Hk, obj_lookup_set_eq, Hv.
  erewrite (obj_add_length_wf o) by done.
  rewrite obj_delete_set_absent
    by (by rewrite obj_lookup_set_ne by (symmetry; apply encodeKey_not_length)).
  erewrite obj_add_length_wf by apply obj_lookup_set_eq.
  rewrite obj_set_set. apply obj_set_same. rewrite Hl. do 2 f_equal. lia.
Qed.

(** X5. [set(k, v)] changes nothing but the entry of [k]: for every other
    key [k'], [get(k')] and [has(k')] answer as before, and every object
    of the heap other than the store is as it was. *)
Theorem set_leaves_other_keys (h : heap) (this : loc) (o : obj)
    (k k' : jsstring) (v : value) :
  is_store h this o →
  k' ≠ k →
  ∃ (h' : heap) (v' : value) (present : bool),
    set this (SetKeyValue k v) h = Some (tt, h') ∧
    get this k' h = Some (v', h) ∧ get this k' h' = Some (v', h') ∧
    has this k' h = Some (present, h) ∧ has this k' h' = Some (present, h') ∧
    ∀ l, l ≠ this → h' !! l = h !! l.
Proof.
  intros Hs Hne.
  destruct (setKeyValue_store h this o k v Hs) as (h' & o' & Hr & Hs' & -> & He).
  exists (<[this := o']> h), (default VUndefined (obj_lookup (entries o) k')),
    (bool_decide (is_Some (obj_lookup (entries o) k'))).
  erewrite !get_store, !has_store by done.
  rewrite He, obj_lookup_set_ne by done. split_and!; try done.
  intros l Hl. by rewrite heap_lookup_update_ne.
Qed.

Lemma set_leaves_other_keys_witness :
  ∃ h' : heap,
    set 0%nat (SetKeyValue key_a (VNum 7)) [store_a1_b2] = Some (tt, h') ∧
    get 0%nat key_b h' = Some (VNum 2, h').
Proof.
  destruct (set_leaves_other_keys [store_a1_b2] 0%nat store_a1_b2
              key_a key_b (VNum 7))
    as (h' & v' & p & Hr & Hg & Hg' & _).
  - split; [reflexivity|]. apply wf_store_decide; reflexivity.
  - discriminate.
  - exists h'. split; [done|]. injection Hg as <-. done.
Defined.

(** X6. [remove(k)] changes nothing but the entry of [k]: for every other
    key [k'], [get(k')] and [has(k')] answer as before, and every object
    of the heap other than the store is as it was. *)
Theorem remove_leaves_other_keys (h : heap) (this : loc) (o : obj)
    (k k' : jsstring) :
  is_store h this o →
  k' ≠ k →
  ∃ (h' : heap) (data v' : value) (present : bool),
    remove this (RemoveKey k) h = Some (Removed data, h') ∧
    get this k' h = Some (v', h) ∧ get this k' h' = Some (v', h') ∧
    has this k' h = Some (present, h) ∧ has this k' h' = Some (present, h') ∧
    ∀ l, l ≠ this → h' !! l = h !! l.
Proof.
  intros Hs Hne.
  destruct (remove_key_store h this o k Hs) as (h' & o' & Hr & Hs' & -> & He).
  exists (<[this := o']> h), (default VNull (obj_lookup (entries o) k)),
    (default VUndefined (obj_lookup (entries o) k')),
    (bool_decide (is_Some (obj_lookup (entries o) k'))).
  erewrite !get_store, !has_store by done.
  assert (obj_lookup (entries o') k' = obj_lookup (entries o) k') as ->.
  { rewrite He. destruct (obj_lookup (entries o) k) as [data|]; [|done].
    destruct (not_null data); [|done]. by rewrite obj_lookup_delete_ne. }
  split_and!; try done. intros l Hl. by rewrite heap_lookup_update_ne.
Qed.

Lemma remove_leaves_other_keys_witness :
  ∃ h' : heap,
    remove 0%nat (RemoveKey key_a) [store_a1_b2] = Some (Removed (VNum 1), h') ∧
    get 0%nat key_b h' = Some (VNum 2, h').
Proof.
  destruct (remove_leaves_other_keys [store_a1_b2] 0%nat store_a1_b2 key_a key_b)
    as (h' & data & v' & p & Hr & Hg & Hg' & _).
  - split; [reflexivity|]. apply wf_store_decide; reflexivity.
  - discriminate.
  - exists h'. injection Hg as <-. split; [|done].
    rewrite Hr. vm_compute in Hr. injection Hr as <- _. done.
Defined.

(** X7. Setting a key that is absent to a value other than [null] and
    removing it again gives the value back and restores the heap: the
    store has the same properties in the same order and the same
    [length]. *)
Theorem set_then_remove_restores (h : heap) (this : loc) (o : obj)
    (k : jsstring) (v : value) :
  is_store h this o →
  has this k h = Some (false, h) →
  v ≠ VNull →
  (let* _ := set this (SetKeyValue k v) in remove this (RemoveKey k)) h
  = Some (Removed v, h).
Proof.
  intros Hs Hhas Hv. pose proof Hs as [H Hwf].
  erewrite has_run in Hhas by done. injection Hhas as Hhas.
  apply bool_decide_eq_false_1, eq_None_not_Some in Hhas.
  erewrite bind_run by by apply setKeyValue_run.
  erewrite remove_key_run;
    [|split; [by eapply heap_lookup_update | by apply obj_setKeyValue_wf]].
  rewrite heap_update_update, obj_removeByKey_setKeyValue, heap_update_same
    by (done || by destruct v).
  unfold data_removeByKey, obj_setKeyValue. by rewrite obj_lookup_set_eq.
Qed.

Lemma set_then_remove_restores_witness :
  (let* _ := set 0%nat (SetKeyValue key_x VUndefined) in
   remove 0%nat (RemoveKey key_x)) [store_a1_b2]
  = Some (Removed VUndefined, [store_a1_b2]).
Proof.
  apply (set_then_remove_restores [store_a1_b2] 0%nat store_a1_b2 key_x VUndefined).
  - split; [reflexivity|]. apply wf_store_decide; reflexivity.
  - reflexivity.
  - discriminate.
Defined.

Lemma remove_not_null_witness :
  ∃ (present : bool) (data : value) (n : Z) (h' : heap),
    has 0%nat key_a [store_a1_b2] = Some (present, [store_a1_b2]) ∧
    get 0%nat key_a [store_a1_b2] = Some (data, [store_a1_b2]) ∧
    size 0%nat [store_a1_b2] = Some (VNum n, [store_a1_b2]) ∧
    remove 0%nat (RemoveKey key_a) [store_a1_b2]
      = Some (Removed (if present then data else VNull), h') ∧
    size 0%nat h' = Some (VNum (if present then n - 1 else n), h') ∧
    has 0%nat key_a h' = Some (false, h').
Proof.
  apply (remove_not_null [store_a1_b2] 0%nat store_a1_b2 key_a).
  - split; [reflexivity|]. apply wf_store_decide; reflexivity.
  - discriminate.
Defined.

(** ** Removing several keys *)

Section removeByKeyArray.
Implicit Types (h : heap) (o es : obj) (this : loc) (k key : jsstring)
  (ks : list jsstring).

Lemma obj_removeByKey_entries_remove o key :
  wf_store o → entries (obj_removeByKey o key) = entries_remove (entries o) key.
Proof. apply obj_removeByKey_entries. Qed.

Lemma data_removeByKey_entries o key :
  data_removeByKey o key = default VNull (obj_lookup (entries o) key).
Proof. unfold data_removeByKey. by rewrite lookup_entries. Qed.

Lemma forEach_removeByKey_run ks : ∀ h this o (data : list value),
  is_store h this o →
  forEach ks
    (λ key data, let* d := removeByKey this key in ret (VUndefined, data ++ [d]))
    data h
  = Some (data ++ data_removeByKeyArray o ks,
          <[this := foldl obj_removeByKey o ks]> h).
Proof.
  induction ks as [|k ks IH]; intros h this o data Hs.
  - cbn. rewrite app_nil_r, heap_update_same; [done|by destruct Hs].
  - cbn [forEach]. rewrite bind_unfold.
    erewrite bind_run by by apply removeByKey_run.
    cbn. rewrite IH with (o := obj_removeByKey o k).
    + by rewrite heap_update_update, <-app_assoc.
    + destruct Hs. split; [by eapply heap_lookup_update|].
      by apply obj_removeByKey_wf.
Qed.

Lemma foldl_removeByKey_wf ks : ∀ o,
  wf_store o →
  wf_store (foldl obj_removeByKey o ks) ∧
  entries (foldl obj_removeByKey o ks) = foldl entries_remove (entries o) ks.
Proof.
  induction ks as [|k ks IH]; intros o Hwf; [done|]. csimpl.
  destruct (IH (obj_removeByKey o k)) as [Hwf' He];
    [by apply obj_removeByKey_wf|].
  split; [done|]. by rewrite He, obj_removeByKey_entries_remove.
Qed.

Lemma removeByKeyArray_store h this o ks :
  is_store h this o →
  ∃ o',
    removeByKeyArray this ks h
      = Some (data_removeByKeyArray o ks, <[this := o']> h) ∧
    is_store (<[this := o']> h) this o' ∧
    entries o' = foldl entries_remove (entries o) ks.
Proof.
  intros Hs. exists (foldl obj_removeByKey o ks).
  destruct (foldl_removeByKey_wf ks o) as [Hwf He]; [by destruct Hs|].
  split_and!; [|destruct Hs; by eapply is_store_update|done].
  unfold removeByKeyArray. by erewrite forEach_removeByKey_run.
Qed.

Lemma data_removeByKeyArray_length o ks :
  length (data_removeByKeyArray o ks) = length ks.
Proof. revert o. induction ks as [|k ks IH]; intros o; csimpl; by rewrite ?IH. Qed.

Lemma entries_remove_lookup_ne es k k' :
  k' ≠ k → obj_lookup (entries_remove es k) k' = obj_lookup es k'.
Proof.
  intros Hne. unfold entries_remove.
  destruct (obj_lookup es k) as [d|]; [|done].
  destruct (not_null d); [|done]. by rewrite obj_lookup_delete_ne.
Qed.

Lemma entries_remove_NoDup es k : NoDup es.*1 → NoDup (entries_remove es k).*1.
Proof.
  intros Hd. unfold entries_remove.
  destruct (obj_lookup es k) as [d|]; [|done].
  destruct (not_null d); [|done]. by apply obj_delete_NoDup.
Qed.

Lemma entries_remove_lookup_eq es k :
  NoDup es.*1 →
  obj_lookup (entries_remove es k) k = None ∨
  obj_lookup (entries_remove es k) k = Some VNull.
Proof.
  intros Hd. unfold entries_remove.
  destruct (obj_lookup es k) as [d|] eqn:E; [|by left].
  destruct d; simpl; rewrite ?E; eauto using obj_lookup_delete_eq.
Qed.

Lemma foldl_entries_remove_notin ks : ∀ es k,
  k ∉ ks → obj_lookup (foldl entries_remove es ks) k = obj_lookup es k.
Proof.
  induction ks as [|k0 ks IH]; intros es k Hk; [done|].
  apply not_elem_of_cons in Hk as [Hne Hk]. csimpl.
  by rewrite IH, entries_remove_lookup_ne.
Qed.

Lemma foldl_entries_remove_keeps_gone ks : ∀ es k,
  NoDup es.*1 →
  obj_lookup es k = None ∨ obj_lookup es k = Some VNull →
  obj_lookup (foldl entries_remove es ks) k = None ∨
  obj_lookup (foldl entries_remove es ks) k = Some VNull.
Proof.
  induction ks as [|k0 ks IH]; intros es k Hd Hk; [done|]. csimpl.
  apply IH; [by apply entries_remove_NoDup|].
  destruct (decide (k = k0)) as [->|Hne].
  - by apply entries_remove_lookup_eq.
  - by rewrite entries_remove_lookup_ne.
Qed.

Lemma foldl_entries_remove_in ks : ∀ es k,
  NoDup es.*1 → k ∈ ks →
  obj_lookup (foldl entries_remove es ks) k = None ∨
  obj_lookup (foldl entries_remove es ks) k = Some VNull.
Proof.
  induction ks as [|k0 ks IH]; intros es k Hd Hk;
    [by apply not_elem_of_nil in Hk|].
  csimpl. destruct (decide (k = k0)) as [->|Hne].
  - apply foldl_entries_remove_keeps_gone; [by apply entries_remove_NoDup|].
    by apply entries_remove_lookup_eq.
  - apply elem_of_cons in Hk as [?|Hk]; [done|].
    apply IH; [by apply entries_remove_NoDup|done].
Qed.

Lemma data_removeByKeyArray_lookup ks : ∀ o i k,
  wf_store o → NoDup ks → ks !! i = Some k →
  data_removeByKeyArray o ks !! i
  = Some (default VNull (obj_lookup (entries o) k)).
Proof.
  induction ks as [|k0 ks IH]; intros o i k Hwf Hd Hi; [done|].
  apply NoDup_cons in Hd as [Hn Hd]. destruct i as [|i]; csimpl in *.
  - injection Hi as ->. by rewrite data_removeByKey_entries.
  - rewrite (IH _ i k) by (done || by apply obj_removeByKey_wf).
    rewrite obj_removeByKey_entries_remove, entries_remove_lookup_ne; [done| |done].
    intros ->. apply Hn. by eapply list_elem_of_lookup_2.
Qed.

Lemma entries_remove_length es k :
  Z.of_nat (length (entries_remove es k)) =
  Z.of_nat (length es) - (if not_null (default VNull (obj_lookup es k)) then 1 else 0).
Proof.
  unfold entries_remove. destruct (obj_lookup es k) as [d|] eqn:E; simpl; [|lia].
  destruct (not_null d); [|lia]. apply obj_delete_length in E. lia.
Qed.

Lemma foldl_entries_remove_length ks : ∀ o,
  wf_store o →
  Z.of_nat (length (foldl entries_remove (entries o) ks)) =
  Z.of_nat (length (entries o))
  - Z.of_nat (length (List.filter not_null (data_removeByKeyArray o ks))).
Proof.
  induction ks as [|k ks IH]; intros o Hwf; csimpl; [lia|].
  rewrite <-obj_removeByKey_entries_remove, IH by (done || by apply obj_removeByKey_wf).
  rewrite obj_removeByKey_entries_remove, entries_remove_length by done.
  rewrite data_removeByKey_entries.
  destruct (not_null (default VNull (obj_lookup (entries o) k))); csimpl; lia.
Qed.
End removeByKeyArray.

(** X9. [remove] with an array of keys returns an array of the same
    length.  [size] goes down by the number of its elements that are not
    [null]; afterwards every key of the array is absent or holds [null],
    and every other key is as before.  If the keys are distinct, the
    element at index [i] is the value that the key at index [i] held, or
    [null] if it was absent. *)
Theorem remove_array_of_keys (h : heap) (this : loc) (o : obj)
    (ks : list jsstring) :
  is_store h this o →
  ∃ (data : list value) (h' : heap) (n : Z),
    remove this (RemoveArray ks) h = Some (RemovedArray data, h') ∧
    length data = length ks ∧
    size this h = Some (VNum n, h) ∧
    size this h'
      = Some (VNum (n - Z.of_nat (length (List.filter not_null data))), h') ∧
    (∀ k, k ∈ ks →
       has this k h' = Some (false, h') ∨ get this k h' = Some (VNull, h')) ∧
    (∀ k, k ∉ ks →
       ∃ v present,
         get this k h = Some (v, h) ∧ get this k h' = Some (v, h') ∧
         has this k h = Some (present, h) ∧ has this k h' = Some (present, h')) ∧
    (NoDup ks → ∀ i k, ks !! i = Some k →
       ∃ v present,
         get this k h = Some (v, h) ∧ has this k h = Some (present, h) ∧
         data !! i = Some (if present then v else VNull)).
Proof.
  intros Hs. pose proof Hs as [H Hwf].
  destruct (removeByKeyArray_store h this o ks Hs) as (o' & Hr & Hs' & He).
  pose proof (entries_NoDup o (proj1 Hwf)) as Hd.
  exists (data_removeByKeyArray o ks), (<[this := o']> h),
    (Z.of_nat (length (entries o))).
  split_and!.
  - unfold remove. by erewrite bind_run by done.
  - apply data_removeByKeyArray_length.
  - by apply size_run.
  - erewrite size_run by done. by rewrite He, foldl_entries_remove_length.
  - intros k Hk. erewrite has_store, get_store by done. rewrite He.
    destruct (foldl_entries_remove_in ks (entries o) k Hd Hk) as [-> | ->];
      [left|right]; done.
  - intros k Hk.
    exists (default VUndefined (obj_lookup (entries o) k)),
      (bool_decide (is_Some (obj_lookup (entries o) k))).
    erewrite !has_store, !get_store by done.
    by rewrite He, foldl_entries_remove_notin.
  - intros Hnd i k Hi.
    exists (default VUndefined (obj_lookup (entries o) k)),
      (bool_decide (is_Some (obj_lookup (entries o) k))).
    erewrite has_store, get_store by done. split_and!; [done..|].
    rewrite (data_removeByKeyArray_lookup ks o i k) by done.
    by destruct (obj_lookup (entries o) k).
Qed.

Lemma remove_array_of_keys_witness :
  ∃ h' : heap,
    remove 0%nat (RemoveArray [key_a; key_x]) [store_a1_b2_x3]
      = Some (RemovedArray [VNum 1; VNum 3], h') ∧
    size 0%nat h' = Some (VNum 1, h') ∧
    keys 0%nat h' = Some ([key_b], h').
Proof.
  destruct (remove_array_of_keys [store_a1_b2_x3] 0%nat store_a1_b2_x3
              [key_a; key_x])
    as (data & h' & n & Hr & _ & Hn & Hn' & _).
  - split; [reflexivity|]. apply wf_store_decide; reflexivity.
  - exists h'. vm_compute in Hr. injection Hr as <- <-.
    split_and!; reflexivity.
Defined.

(** X10. The call shapes of [remove] differ in what they return, not in
    what they do: [remove([k])] leaves the heap that [remove(k)] leaves
    and returns the one-element array of what [remove(k)] returns; and
    [remove(k, k2, ...)] is [remove([k, k2, ...])]. *)
Theorem remove_call_shapes (h : heap) (this : loc) (o : obj) (k : jsstring) :
  is_store h this o →
  ∃ (data : value) (h' : heap),
    remove this (RemoveKey k) h = Some (Removed data, h') ∧
    remove this (RemoveArray [k]) h = Some (RemovedArray [data], h') ∧
    ∀ k2 more,
      remove this (RemoveKeys k k2 more) h
      = remove this (RemoveArray (k :: k2 :: more)) h.
Proof.
  intros Hs. exists (data_removeByKey o k), (<[this := obj_removeByKey o k]> h).
  split_and!.
  - by apply remove_key_run.
  - unfold remove, removeByKeyArray.
    by erewrite bind_run by by apply forEach_removeByKey_run.
  - done.
Qed.

Lemma remove_call_shapes_witness :
  ∃ h' : heap,
    remove 0%nat (RemoveKey key_a) [store_a1_b2] = Some (Removed (VNum 1), h') ∧
    remove 0%nat (RemoveArray [key_a]) [store_a1_b2]
      = Some (RemovedArray [VNum 1], h').
Proof.
  destruct (remove_call_shapes [store_a1_b2] 0%nat store_a1_b2 key_a)
    as (data & h' & Hr & Hr' & _).
  - split; [reflexivity|]. apply wf_store_decide; reflexivity.
  - exists h'. rewrite Hr'. rewrite Hr. vm_compute in Hr. by injection Hr as <- _.
Defined.

(** ** Setting from a record, and the constructor *)

Section setObject.
Implicit Types (h : heap) (o rec : obj) (this r : loc) (k key : jsstring).

Lemma forIn_inv {L} (I : list jsstring → heap → L → Prop) (from : loc)
    (iteratee : value → jsstring → L → M (value * L)) :
  (∀ name names h l, I (name :: names) h l →
     ∃ o, h !! from = Some o ∧
       match obj_lookup o name with
       | Some v =>
           ∃ res l' h', iteratee v name l h = Some ((res, l'), h') ∧
                        strict_false res = false ∧ I names h' l'
       | None => I names h l
       end) →
  ∀ names h l, I names h l →
    ∃ l' h', forIn from iteratee names l h = Some (l', h') ∧ I [] h' l'.
Proof.
  intros Hstep names. induction names as [|name names IH]; intros h l HI.
  - by exists l, h.
  - destruct (Hstep _ _ _ _ HI) as (o & Ho & Hcase). cbn [forIn].
    erewrite bind_run by by apply deref_run.
    destruct (obj_lookup o name) as [v|]; [|by apply IH].
    destruct Hcase as (res & l' & h' & Hit & Hres & HI').
    erewrite bind_run by done. cbn. rewrite Hres. by apply IH.
Qed.

Lemma foldl_setKeyValue_wf (kvs : obj) : ∀ o,
  wf_store o →
  wf_store (foldl (λ o p, obj_setKeyValue o p.1 p.2) o kvs) ∧
  entries (foldl (λ o p, obj_setKeyValue o p.1 p.2) o kvs)
  = foldl (λ es p, obj_set es p.1 p.2) (entries o) kvs.
Proof.
  induction kvs as [|[k v] kvs IH]; intros o Hwf; [done|]. csimpl.
  destruct (IH (obj_setKeyValue o k v)) as [Hwf' He];
    [by apply obj_setKeyValue_wf|].
  split; [done|]. by rewrite He, obj_setKeyValue_entries.
Qed.

Lemma set_each_run (kvs : obj) : ∀ h this o,
  is_store h this o →
  set_each this kvs h
  = Some (tt, <[this := foldl (λ o p, obj_setKeyValue o p.1 p.2) o kvs]> h).
Proof.
  induction kvs as [|[k v] kvs IH]; intros h this o Hs.
  - cbn. rewrite heap_update_same; [done|by destruct Hs].
  - cbn [set_each set]. erewrite bind_run by by apply setKeyValue_run.
    rewrite IH with (o := obj_setKeyValue o k v).
    + by rewrite heap_update_update.
    + destruct Hs. split; [by eapply heap_lookup_update|].
      by apply obj_setKeyValue_wf.
Qed.

Lemma setObject_run h this r o rec :
  is_store h this o → h !! r = Some rec → r ≠ this → NoDup rec.*1 →
  setObject this r h
  = Some (tt, <[this := foldl (λ o p, obj_setKeyValue o p.1 p.2) o rec]> h).
Proof.
  intros [H Hwf] Hr Hne Hd. unfold setObject, forEachOwnProperties.
  erewrite bind_run by by apply deref_run.
  destruct (forIn_inv
    (λ names h' (_ : unit), ∃ seen rest,
       rec = seen ++ rest ∧ names = rest.*1 ∧
       h' = <[this := foldl (λ o p, obj_setKeyValue o p.1 p.2) o seen]> h)
    r
    (λ v key (_ : unit), let* _ := setKeyValue this key v in ret (VUndefined, tt)))
    with (names := rec.*1) (h := h) (l := tt)
    as ([] & h' & Hrun & seen & rest & Hrec & Hnil & ->).
  - intros name names h1 [] (seen & rest & Hrec & Hnames & ->).
    exists rec. split; [by rewrite heap_lookup_update_ne|].
    destruct rest as [|[name' v] rest]; [done|]. injection Hnames as <- ->.
    assert (obj_lookup rec name = Some v) as ->.
    { apply obj_lookup_elem; [done|]. rewrite Hrec. apply elem_of_app.
      right. by left. }
    eexists VUndefined, tt, _. split_and!; [|done|].
    + erewrite bind_run; [done|]. apply setKeyValue_run.
      split; [by eapply heap_lookup_update|].
      by apply foldl_setKeyValue_wf.
    + exists (seen ++ [(name, v)]), rest. split_and!.
      * by rewrite <-app_assoc.
      * done.
      * by rewrite heap_update_update, foldl_app.
  - exists [], rec. split_and!; [done..|]. by rewrite heap_update_same.
  - rewrite Hrun. destruct rest; [|done]. by rewrite app_nil_r in Hrec; subst.
Qed.

Lemma foldl_obj_set_fresh (rec : obj) : ∀ es : obj,
  NoDup (es ++ rec).*1 →
  foldl (λ es p, obj_set es p.1 p.2) es rec = es ++ rec.
Proof.
  induction rec as [|[k v] rec IH]; intros es Hd; csimpl.
  - by rewrite app_nil_r.
  - assert (obj_set es k v = es ++ [(k, v)]) as ->.
    { rewrite fmap_app in Hd. apply NoDup_app in Hd as (_ & Hn & _).
      assert (k ∉ es.*1) as Hk by (intros Hk; apply (Hn k Hk); by left).
      clear -Hk. induction es as [|[k' v'] es IH]; [done|]. csimpl in *.
      apply not_elem_of_cons in Hk as [Hne Hk]. unfold str_eqb.
      rewrite bool_decide_eq_false_2 by done. by rewrite IH. }
    rewrite IH; [by rewrite <-app_assoc|]. by rewrite <-app_assoc.
Qed.
End setObject.

Lemma NoDup_decide (names : list jsstring) :
  bool_decide (NoDup names) = true → NoDup names.
Proof. apply bool_decide_eq_true_1. Qed.

(** X11. [set(obj)], that is [setObject(obj)], with a record other than
    the store itself is [set(key, obj[key])] for each own property of the
    record, in the order of enumeration; the record is unchanged. *)
Theorem setObject_is_repeated_set (h : heap) (this r : loc) (o rec : obj) :
  is_store h this o →
  h !! r = Some rec →
  NoDup rec.*1 →
  r ≠ this →
  ∃ h' : heap,
    set this (SetObject r) h = Some (tt, h') ∧
    setObject this r h = Some (tt, h') ∧
    set_each this rec h = Some (tt, h') ∧
    h' !! r = Some rec.
Proof.
  intros Hs Hr Hd Hne. eexists. split_and!.
  - by apply setObject_run.
  - by apply setObject_run.
  - by apply set_each_run.
  - by rewrite heap_lookup_update_ne.
Qed.

Lemma setObject_is_repeated_set_witness :
  ∃ h' : heap,
    setObject 1%nat 0%nat [record_a1_b2; store_empty] = Some (tt, h') ∧
    set_each 1%nat [(key_a, VNum 1); (key_b, VNum 2)] [record_a1_b2; store_empty]
      = Some (tt, h') ∧
    h' !! 1%nat = Some store_a1_b2.
Proof.
  destruct (setObject_is_repeated_set [record_a1_b2; store_empty] 1%nat 0%nat
              store_empty record_a1_b2)
    as (h' & _ & Hr & Hr' & _).
  - split; [reflexivity|]. apply wf_store_decide; reflexivity.
  - reflexivity.
  - apply NoDup_decide. reflexivity.
  - discriminate.
  - exists h'. split_and!; [done..|].
    vm_compute in Hr. by injection Hr as <-.
Defined.

(** X12. [new HashMap(obj)] makes a store at a fresh reference and leaves
    every object of the heap as it was.  The store holds the own
    properties of [obj]: [size] is their number, [get(k)] is [obj[k]] for
    an own property [k] and [undefined] otherwise, [has(k)] tells whether
    [k] is an own property of [obj], and [keys()] lists them, decoded, in
    the order of enumeration.  [new HashMap()] makes an empty store. *)
Theorem constructor_from_record (h : heap) (r : loc) (rec : obj) :
  h !! r = Some rec →
  NoDup rec.*1 →
  HashMap None h = Some (length h, h ++ [store_empty]) ∧
  ∃ h' : heap,
    HashMap (Some r) h = Some (length h, h') ∧
    length h' = S (length h) ∧
    (∀ l, (l < length h)%nat → h' !! l = h !! l) ∧
    size (length h) h' = Some (VNum (Z.of_nat (length rec)), h') ∧
    (∀ k, get (length h) k h'
          = Some (default VUndefined (obj_lookup rec k), h')) ∧
    (∀ k, has (length h) k h' = Some (bool_decide (k ∈ rec.*1), h')) ∧
    keys (length h) h' = Some (decodeKey <$> rec.*1, h').
Proof.
  intros Hr Hd.
  assert (∀ (f : loc → M unit),
            (let* this := alloc [] in
             let* _ := put_prop this str_length (VNum 0) in
             let* _ := f this in ret this) h
            = (let* _ := f (length h) in ret (length h)) (h ++ [store_empty]))
    as Hnew.
  { intros f. rewrite bind_unfold. unfold alloc at 1.
    erewrite bind_run; [|apply put_prop_run; by apply list_lookup_middle].
    set (h1 := <[length h := _]> _).
    assert (h1 = h ++ [store_empty]) as ->
      by (subst h1; by rewrite insert_app_r_alt, Nat.sub_diag).
    done. }
  split.
  - unfold HashMap. by rewrite (Hnew (λ _, ret tt)).
  - assert (is_store (h ++ [store_empty]) (length h) store_empty) as Hs.
    { split; [by apply list_lookup_middle | apply store_empty_wf]. }
    assert (r < length h)%nat as Hlt by by eapply lookup_lt_Some.
    destruct (foldl_setKeyValue_wf rec store_empty store_empty_wf) as [Hwf He].
    rewrite foldl_obj_set_fresh in He by done. simpl in He.
    set (o' := foldl (λ o p, obj_setKeyValue o p.1 p.2) store_empty rec) in *.
    assert (is_store (<[length h := o']> (h ++ [store_empty])) (length h) o')
      as Hs' by (destruct Hs; by eapply is_store_update).
    exists (<[length h := o']> (h ++ [store_empty])). split_and!.
    + unfold HashMap. rewrite (Hnew (λ this, setObject this r)).
      erewrite bind_run; [done|].
      apply setObject_run; [done| |lia|done].
      by rewrite lookup_app_l.
    + rewrite length_insert, length_app. simpl. lia.
    + intros l Hl. rewrite heap_lookup_update_ne by lia. by rewrite lookup_app_l.
    + erewrite size_run by done. by rewrite He.
    + intros k. erewrite get_store by done. by rewrite He.
    + intros k. erewrite has_store_elem by done. by rewrite He.
    + erewrite keys_store by done. by rewrite He.
Qed.

Lemma constructor_from_record_witness :
  ∃ h' : heap,
    HashMap (Some 0%nat) [record_a1_b2] = Some (1%nat, h') ∧
    size 1%nat h' = Some (VNum 2, h') ∧
    keys 1%nat h' = Some ([key_a; key_b], h') ∧
    get 1%nat key_b h' = Some (VNum 2, h').
Proof.
  destruct (constructor_from_record [record_a1_b2] 0%nat record_a1_b2)
    as (_ & h' & Hr & _ & _ & Hsz & Hget & _ & Hkeys).
  - reflexivity.
  - apply NoDup_decide. reflexivity.
  - exists h'. split_and!; [done..|]. by rewrite Hget.
Defined.

(** ** What [removeAll] leaves *)

Section removeAll_more.
Implicit Types (h : heap) (o es : obj) (this : loc) (k key : jsstring).

Lemma obj_delete_sublist o key : obj_delete o key `sublist_of` o.
Proof.
  induction o as [|[n' v'] o IH]; csimpl; [done|]. unfold str_eqb.
  case_bool_decide; [by apply sublist_cons | by apply sublist_skip].
Qed.

Lemma entries_remove_sublist es key : entries_remove es key `sublist_of` es.
Proof.
  unfold entries_remove. destruct (obj_lookup es key) as [d|]; [|done].
  destruct (not_null d); [apply obj_delete_sublist | done].
Qed.

Lemma sublist_lookup (es' es : obj) k v :
  NoDup es.*1 → es' `sublist_of` es →
  obj_lookup es' k = Some v → obj_lookup es k = Some v.
Proof.
  intros Hd Hsub Hk%obj_lookup_Some_elem.
  apply obj_lookup_elem; [done|]. by eapply elem_of_sublist.
Qed.

Lemma sublist_filter_char {A} (p : A → bool) (l' l : list A) :
  l' `sublist_of` l → NoDup l →
  (∀ x, x ∈ l' ↔ x ∈ l ∧ p x = true) →
  l' = List.filter p l.
Proof.
  induction 1 as [|x l' l Hsub IH|x l' l Hsub IH]; intros Hd Hchar; [done|..];
    apply NoDup_cons in Hd as [Hx Hd]; simpl.
  - assert (p x = true) as -> by (apply Hchar; by left).
    f_equal. apply IH; [done|]. intros y. split.
    + intros Hy. assert (y ∈ l) as Hyl by by eapply elem_of_sublist.
      split; [done|]. apply Hchar. by right.
    + intros [Hy Hp].
      assert (y ∈ x :: l') as Hin by (apply Hchar; split; [by right|done]).
      by apply elem_of_cons in Hin as [->|?].
  - assert (x ∉ l') as Hx' by (intros ?; apply Hx; by eapply elem_of_sublist).
    assert (p x = false) as ->.
    { destruct (p x) eqn:E; [|done]. destruct Hx'. apply Hchar.
      split; [by left|done]. }
    apply IH; [done|]. intros y. split.
    + intros Hy. destruct (proj1 (Hchar y) Hy) as [Hin Hp].
      by apply elem_of_cons in Hin as [->|?].
    + intros [Hy Hp]. apply Hchar. split; [by right|done].
Qed.
Lemma filter_null_values es :
  (List.filter (λ p, negb (not_null p.2)) es).*2
  = List.filter (λ v, negb (not_null v)) es.*2.
Proof.
  induction es as [|[k v] es IH]; [done|]. csimpl.
  destruct (not_null v); csimpl; by rewrite IH.
Qed.
End removeAll_more.

(** X13. [removeAll()] only removes.  On every store it runs; the
    entries left were there before, with their values and in their
    order; [size] does not grow; no other object of the heap changes. *)
Theorem removeAll_only_removes (h : heap) (this : loc) (o : obj) :
  is_store h this o →
  ∃ (h' : heap) (ks ks' : list jsstring) (n n' : Z),
    removeAll this h = Some (tt, h') ∧
    keys this h = Some (ks, h) ∧ keys this h' = Some (ks', h') ∧
    ks' `sublist_of` ks ∧
    size this h = Some (VNum n, h) ∧ size this h' = Some (VNum n', h') ∧
    n' ≤ n ∧
    (∀ k, has this k h' = Some (true, h') →
       has this k h = Some (true, h) ∧
       ∃ v, get this k h = Some (v, h) ∧ get this k h' = Some (v, h')) ∧
    (∀ l, l ≠ this → h' !! l = h !! l).
Proof.
  intros Hs. pose proof Hs as [H [Hd Hl]].
  destruct (removeAll_inv (λ _ o', entries o' `sublist_of` entries o)
              h this o Hs) as (o' & Hr & Hwf' & Hsub); [done|..].
  { clear. intros name names o' Hwf Hsub.
    destruct (obj_lookup o' name); [|done].
    destruct (is_data name); [|done].
    rewrite obj_removeByKey_entries_remove by done.
    etransitivity; [apply entries_remove_sublist | done]. }
  assert (is_store (<[this := o']> h) this o') as Hs'
    by by eapply is_store_update.
  pose proof (entries_NoDup o Hd) as Hde.
  exists (<[this := o']> h), (decodeKey <$> (entries o).*1),
    (decodeKey <$> (entries o').*1),
    (Z.of_nat (length (entries o))), (Z.of_nat (length (entries o'))).
  split_and!.
  - done.
  - by apply keys_store.
  - by apply keys_store.
  - by do 2 apply fmap_sublist.
  - by apply size_run.
  - by apply size_run.
  - apply sublist_length in Hsub. lia.
  - intros k Hk. erewrite has_store in Hk by done. injection Hk as Hk.
    apply bool_decide_eq_true_1 in Hk as [v Hv].
    pose proof (sublist_lookup _ _ _ _ Hde Hsub Hv) as Hv0.
    erewrite has_store, !get_store by done. rewrite Hv, Hv0. simpl.
    split; [done|by exists v].
  - intros l Hne. by rewrite heap_lookup_update_ne.
Qed.

Lemma removeAll_only_removes_witness :
  ∃ (h' : heap) (ks' : list jsstring),
    removeAll 0%nat [store_a_null] = Some (tt, h') ∧
    keys 0%nat h' = Some (ks', h') ∧
    ks' `sublist_of` [key_a].
Proof.
  destruct (removeAll_only_removes [store_a_null] 0%nat store_a_null)
    as (h' & ks & ks' & n & n' & Hr & Hk & Hk' & Hsub & _).
  - split; [reflexivity|]. apply wf_store_decide; reflexivity.
  - exists h', ks'. split_and!; [done..|]. by injection Hk as <-.
Defined.

(** X14. On a store whose keys are free of the prefix character,
    [removeAll()] leaves exactly the entries whose value is [null], in
    their order: a key that held [null] is still present and holds
    [null], every other key is absent, and [size] is the number of [null]
    values the store held. *)
Theorem removeAll_leaves_null_entries (h : heap) (this : loc) (o : obj) :
  is_store h this o →
  Forall prefix_free (entries o).*1 →
  ∃ (h' : heap) (vs : list value),
    removeAll this h = Some (tt, h') ∧
    toArray this h = Some (vs, h) ∧
    size this h'
      = Some (VNum (Z.of_nat (length (List.filter (λ v, negb (not_null v)) vs))), h') ∧
    keys this h'
      = Some ((List.filter (λ p, negb (not_null p.2)) (entries o)).*1, h') ∧
    (∀ k, get this k h = Some (VNull, h) →
       has this k h' = Some (true, h') ∧ get this k h' = Some (VNull, h')) ∧
    (∀ k, get this k h ≠ Some (VNull, h) → has this k h' = Some (false, h')).
Proof.
  intros Hs Hfree. pose proof Hs as [H [Hd Hl]].
  pose proof (entries_NoDup o Hd) as Hde.
  destruct (removeAll_inv
    (λ names o',
       entries o' `sublist_of` entries o ∧
       (∀ k, obj_lookup (entries o) k = Some VNull →
             obj_lookup (entries o') k = Some VNull) ∧
       (∀ k v, obj_lookup (entries o) k = Some v → v ≠ VNull →
               encodeKey k ∉ names → obj_lookup (entries o') k = None))
    h this o Hs) as (o' & Hr & Hwf' & Hsub & Hnull & Hgone).
  - split_and!; [done..|]. intros k v Hk _ Hn. destruct Hn.
    rewrite lookup_entries in Hk. apply obj_lookup_is_Some. by rewrite Hk.
  - clear H Hl Hs. intros name names o' Hwf (Hsub & Hnull & Hgone).
    destruct (obj_lookup o' name) as [v|] eqn:E.
    + destruct (is_data name) eqn:Ed.
      * apply is_data_user_key in Ed as [u Hu]. apply user_key_Some in Hu as ->.
        rewrite <-lookup_entries in E.
        assert (prefix_free u) as Hu.
        { rewrite Forall_forall in Hfree. apply Hfree.
          apply obj_lookup_is_Some. exists v. by eapply sublist_lookup. }
        rewrite decodeKey_encodeKey, decodeKey_no_prefix by done.
        rewrite obj_removeByKey_entries_remove by done. split_and!.
        -- etransitivity; [apply entries_remove_sublist | done].
        -- intros k Hk. destruct (decide (k = u)) as [->|Hne].
           ++ unfold entries_remove. rewrite (Hnull u Hk). simpl. by apply Hnull.
           ++ rewrite entries_remove_lookup_ne by done. by apply Hnull.
        -- intros k w Hk Hw Hn. destruct (decide (k = u)) as [->|Hne].
           ++ pose proof (sublist_lookup _ _ _ _ Hde Hsub E) as E0.
              assert (v = w) as -> by congruence.
              unfold entries_remove. rewrite E.
              assert (not_null w = true) as -> by by destruct w.
              apply obj_lookup_delete_eq, entries_NoDup, Hwf.
           ++ rewrite entries_remove_lookup_ne by done.
              eapply Hgone; [done..|].
              apply not_elem_of_cons. split; [|done]. by intros ?%encodeKey_inj.
      * split_and!; [done..|]. intros k w Hk Hw Hn.
        eapply Hgone; [done..|]. apply not_elem_of_cons. split; [|done].
        intros <-. by rewrite is_data_encodeKey in Ed.
    + split_and!; [done..|]. intros k w Hk Hw Hn.
      destruct (decide (encodeKey k = name)) as [<-|Hne].
      * by rewrite lookup_entries.
      * eapply Hgone; [done..|]. by apply not_elem_of_cons.
  - assert (is_store (<[this := o']> h) this o') as Hs'
      by by eapply is_store_update.
    assert (entries o'
            = List.filter (λ p, negb (not_null p.2)) (entries o)) as He.
    { apply sublist_filter_char; [done|by eapply NoDup_fmap_1|].
      intros [k v]. split.
      - intros Hin. split; [by eapply elem_of_sublist|]. simpl.
        apply obj_lookup_elem in Hin; [|by apply entries_NoDup, Hwf'].
        pose proof (sublist_lookup _ _ _ _ Hde Hsub Hin) as Hin0.
        destruct (not_null v) eqn:Hv; [|done].
        rewrite (Hgone k v Hin0) in Hin; [done| |apply not_elem_of_nil].
        by intros ->.
      - intros [Hin Hv]. simpl in Hv.
        assert (v = VNull) as -> by by destruct v.
        apply obj_lookup_elem in Hin; [|done].
        by apply obj_lookup_Some_elem, Hnull. }
    exists (<[this := o']> h), (entries o).*2. split_and!.
    + done.
    + by apply toArray_run.
    + erewrite size_run by done.
      by rewrite He, <-filter_null_values, length_fmap.
    + erewrite keys_store by done. rewrite He. do 2 f_equal.
      apply fmap_decodeKey_prefix_free.
      rewrite Forall_forall in Hfree. apply Forall_forall. intros k Hk.
      apply Hfree. apply list_elem_of_fmap in Hk as ([k' v] & -> & Hk).
      apply list_elem_of_fmap. exists (k', v). split; [done|].
      apply list_elem_of_In, filter_In in Hk as [Hk _].
      by apply list_elem_of_In.
    + intros k Hk. erewrite get_store in Hk by done.
      assert (obj_lookup (entries o) k = Some VNull) as Hk0.
      { destruct (obj_lookup (entries o) k); simpl in Hk; congruence. }
      erewrite has_store, get_store by done. by rewrite (Hnull k Hk0).
    + intros k Hk. erewrite get_store in Hk by done.
      erewrite has_store by done.
      destruct (obj_lookup (entries o) k) as [v|] eqn:Hk0.
      * rewrite (Hgone k v Hk0); [done| |apply not_elem_of_nil].
        intros ->. by destruct Hk.
      * destruct (obj_lookup (entries o') k) as [v|] eqn:Hk1; [|done].
        by rewrite (sublist_lookup _ _ _ _ Hde Hsub Hk1) in Hk0.
Qed.

Lemma removeAll_leaves_null_entries_witness :
  ∃ h' : heap,
    removeAll 0%nat [store_a_null] = Some (tt, h') ∧
    size 0%nat h' = Some (VNum 1, h') ∧
    keys 0%nat h' = Some ([key_a], h').
Proof.
  destruct (removeAll_leaves_null_entries [store_a_null] 0%nat store_a_null)
    as (h' & vs & Hr & Hv & Hsz & Hk & _).
  - split; [reflexivity|]. apply wf_store_decide; reflexivity.
  - repeat constructor; apply prefix_free_decide; reflexivity.
  - exists h'. injection Hv as <-. by split_and!.
Defined.

(** ** Merging, whatever the keys *)

Section merge_more.
Implicit Types (h : heap) (o oa ob es acc : obj) (a b : loc) (k key : jsstring).

Lemma obj_set_is_Some acc key k v :
  is_Some (obj_lookup acc k) → is_Some (obj_lookup (obj_set acc key v) k).
Proof.
  intros Hk. destruct (decide (key = k)) as [->|Hne].
  - rewrite obj_lookup_set_eq. eauto.
  - by rewrite obj_lookup_set_ne.
Qed.

Lemma foldl_set_decoded_is_Some es : ∀ acc k,
  is_Some (obj_lookup acc k) →
  is_Some (obj_lookup (foldl (λ es p, obj_set es (decodeKey p.1) p.2) acc es) k).
Proof.
  induction es as [|[k' v'] es IH]; intros acc k Hk; [done|]. csimpl.
  by apply IH, obj_set_is_Some.
Qed.

Lemma foldl_set_decoded_in es : ∀ acc key v,
  (key, v) ∈ es →
  is_Some (obj_lookup (foldl (λ es p, obj_set es (decodeKey p.1) p.2) acc es)
             (decodeKey key)).
Proof.
  induction es as [|[k' v'] es IH]; intros acc key v Hin;
    [by apply not_elem_of_nil in Hin|].
  csimpl. apply elem_of_cons in Hin as [[= <- <-]|Hin].
  - apply foldl_set_decoded_is_Some. rewrite obj_lookup_set_eq. eauto.
  - by eapply IH.
Qed.

Lemma foldl_set_decoded_notin es : ∀ acc k,
  (∀ p, p ∈ es → decodeKey p.1 ≠ k) →
  obj_lookup (foldl (λ es p, obj_set es (decodeKey p.1) p.2) acc es) k
  = obj_lookup acc k.
Proof.
  induction es as [|[k' v'] es IH]; intros acc k Hk; [done|]. csimpl.
  rewrite IH by (intros p Hp; apply Hk; by right).
  apply obj_lookup_set_ne. apply (Hk (k', v')). by left.
Qed.

Lemma foldl_set_decoded_length es : ∀ acc,
  (length acc ≤ length (foldl (λ es p, obj_set es (decodeKey p.1) p.2) acc es))%nat.
Proof.
  induction es as [|[k' v'] es IH]; intros acc; [done|]. csimpl.
  etransitivity; [|apply IH]. rewrite obj_set_length.
  destruct (obj_lookup acc (decodeKey k')); lia.
Qed.

Lemma merge_distinct_run h a b oa ob :
  is_store h a oa → is_store h b ob → a ≠ b →
  ∃ oa',
    merge a b h = Some (tt, <[a := oa']> h) ∧
    wf_store oa' ∧
    entries oa'
    = foldl (λ es p, obj_set es (decodeKey p.1) p.2) (entries oa) (entries ob).
Proof.
  intros [Ha Hwfa] [Hb Hwfb] Hne. unfold merge. erewrite each_run by done.
  destruct (each_loop_inv
    (λ names h' (_ : unit), ∃ oa' seen rest,
       h' = <[a := oa']> h ∧ wf_store oa' ∧
       ob = seen ++ rest ∧ names = rest.*1 ∧
       entries oa'
       = foldl (λ es p, obj_set es (decodeKey p.1) p.2) (entries oa) (entries seen))
    b
    (λ v key (_ : unit),
       let* _ := setKeyValue a key v in ret (VUndefined, tt)))
    with (names := ob.*1) (h := h) (l := tt)
    as ([] & h' & Hr & oa' & seen & rest & -> & Hwf' & Hob & Hnil & He).
  - intros name names h1 [] (oa1 & seen & rest & -> & Hwf1 & Hob & Hnames & He1).
    exists ob. split; [by rewrite heap_lookup_update_ne|].
    destruct rest as [|[name' v] rest]; [done|]. injection Hnames as <- ->.
    assert (obj_lookup ob name = Some v) as ->.
    { apply obj_lookup_elem; [by destruct Hwfb|].
      rewrite Hob. apply elem_of_app. right. by left. }
    destruct (is_data name) eqn:Ed.
    + apply is_data_user_key in Ed as [u Hu]. apply user_key_Some in Hu as ->.
      rewrite decodeKey_encodeKey.
      eexists VUndefined, tt, _. split_and!; [|done|].
      * erewrite bind_run; [done|]. apply setKeyValue_run.
        split; [by eapply heap_lookup_update | done].
      * rewrite heap_update_update.
        exists (obj_setKeyValue oa1 (decodeKey u) v),
          (seen ++ [(encodeKey u, v)]), rest.
        split_and!; [done|by apply obj_setKeyValue_wf|by rewrite <-app_assoc|done|].
        rewrite obj_setKeyValue_entries, entries_snoc_data, foldl_app by done.
        by rewrite He1.
    + exists oa1, (seen ++ [(name, v)]), rest. split_and!; try done.
      * by rewrite <-app_assoc.
      * by rewrite entries_snoc_other.
  - exists oa, [], ob. split_and!; try done. by rewrite heap_update_same.
  - exists oa'. split_and!; try done.
    destruct rest; [|done]. by rewrite app_nil_r in Hob; subst.
Qed.

(** [merge] changes nothing when every entry it would set is already
    there with the same value. *)
Lemma merge_noop h a b oa ob :
  is_store h a oa → is_store h b ob →
  Forall prefix_free (entries ob).*1 →
  (∀ k v, obj_lookup (entries ob) k = Some v →
          obj_lookup (entries oa) k = Some v) →
  merge a b h = Some (tt, h).
Proof.
  intros [Ha Hwfa] [Hb Hwfb] Hfree Hsame. unfold merge.
  erewrite each_run by done.
  destruct (each_loop_inv (λ _ h' (_ : unit), h' = h) b
    (λ v key (_ : unit),
       let* _ := setKeyValue a key v in ret (VUndefined, tt)))
    with (names := ob.*1) (h := h) (l := tt) as ([] & h' & Hr & ->); [|done..].
  intros name names ? [] ->. exists ob. split; [done|].
  destruct (obj_lookup ob name) as [v|] eqn:E; [|done].
  destruct (is_data name) eqn:Ed; [|done].
  apply is_data_user_key in Ed as [u Hu]. apply user_key_Some in Hu as ->.
  rewrite <-lookup_entries in E.
  assert (prefix_free u) as Hu.
  { rewrite Forall_forall in Hfree. apply Hfree, obj_lookup_is_Some. eauto. }
  rewrite decodeKey_encodeKey, decodeKey_no_prefix by done.
  exists VUndefined, tt, h. split_and!; [|done..].
  erewrite bind_run; [done|]. rewrite setKeyValue_run with (o := oa) by done.
  apply Hsame in E. rewrite lookup_entries in E.
  unfold obj_setKeyValue. rewrite E, obj_set_same, heap_update_same; done.
Qed.
End merge_more.

(** X15. [A.merge(B)] for two different stores, whatever their keys: it
    runs, it sets every entry of [B] into [A] under the decoded key, in
    [B]'s order, and changes no object but [A].  So every key of [A]
    stays present and [size] does not shrink, the decoded key of every
    key of [B] is present in [A], and a key of [A] that is not the decoded
    key of a key of [B] keeps its value. *)
Theorem merge_distinct_stores (h : heap) (a b : loc) (oa ob : obj) :
  is_store h a oa →
  is_store h b ob →
  a ≠ b →
  ∃ (h' : heap) (oa' : obj) (n n' : Z),
    merge a b h = Some (tt, h') ∧
    is_store h' a oa' ∧
    entries oa'
    = foldl (λ es p, obj_set es (decodeKey p.1) p.2) (entries oa) (entries ob) ∧
    (∀ l, l ≠ a → h' !! l = h !! l) ∧
    (∀ k, has a k h = Some (true, h) → has a k h' = Some (true, h')) ∧
    (∀ k, has b k h = Some (true, h) → has a (decodeKey k) h' = Some (true, h')) ∧
    (∀ k, (∀ kb, has b kb h = Some (true, h) → decodeKey kb ≠ k) →
       ∃ v, get a k h = Some (v, h) ∧ get a k h' = Some (v, h')) ∧
    size a h = Some (VNum n, h) ∧ size a h' = Some (VNum n', h') ∧ n ≤ n'.
Proof.
  intros Hsa Hsb Hne.
  destruct (merge_distinct_run h a b oa ob Hsa Hsb Hne) as (oa' & Hr & Hwf' & He).
  pose proof Hsa as [Ha Hwfa]. pose proof Hsb as [Hb Hwfb].
  assert (is_store (<[a := oa']> h) a oa') as Hsa' by by eapply is_store_update.
  pose proof (entries_NoDup ob (proj1 Hwfb)) as Hdb.
  exists (<[a := oa']> h), oa', (Z.of_nat (length (entries oa))),
    (Z.of_nat (length (entries oa'))).
  split_and!; try done.
  - intros l Hl. by rewrite heap_lookup_update_ne.
  - intros k Hk. erewrite has_store in Hk by done. injection Hk as Hk.
    apply bool_decide_eq_true_1 in Hk.
    erewrite has_store by done. rewrite He.
    by rewrite bool_decide_eq_true_2 by by apply foldl_set_decoded_is_Some.
  - intros k Hk. erewrite has_store in Hk by done. injection Hk as Hk.
    apply bool_decide_eq_true_1 in Hk as [v Hv].
    erewrite has_store by done. rewrite He.
    rewrite bool_decide_eq_true_2; [done|].
    eapply foldl_set_decoded_in. by apply obj_lookup_Some_elem.
  - intros k Hk. exists (default VUndefined (obj_lookup (entries oa) k)).
    erewrite !get_store by done. rewrite He, foldl_set_decoded_notin; [done|].
    intros [kb v] Hin. apply Hk. erewrite has_store by done.
    rewrite bool_decide_eq_true_2; [done|].
    exists v. by apply obj_lookup_elem.
  - by apply size_run.
  - by apply size_run.
  - rewrite He. pose proof (foldl_set_decoded_length (entries ob) (entries oa)). lia.
Qed.

Lemma merge_distinct_stores_witness :
  ∃ h' : heap,
    merge 0%nat 1%nat [store_b0; store_a_prefix_b] = Some (tt, h') ∧
    has 0%nat key_b h' = Some (true, h') ∧
    h' !! 1%nat = Some store_a_prefix_b.
Proof.
  destruct (merge_distinct_stores [store_b0; store_a_prefix_b] 0%nat 1%nat
              store_b0 store_a_prefix_b)
    as (h' & oa' & n & n' & Hr & _ & _ & Hframe & Hkeep & _).
  - split; [reflexivity|]. apply wf_store_decide; reflexivity.
  - split; [reflexivity|]. apply wf_store_decide; reflexivity.
  - discriminate.
  - exists h'. split_and!; [done| |].
    + apply Hkeep. reflexivity.
    + by rewrite Hframe.
Defined.

(** X16. Merging is idempotent: after [A.merge(B)] with a store [B] whose
    keys are free of the prefix character, a second [A.merge(B)] changes
    nothing; and [A.merge(A)] changes nothing on such a store. *)
Theorem merge_idempotent (h : heap) (a b : loc) (oa ob : obj) :
  is_store h a oa →
  is_store h b ob →
  Forall prefix_free (entries ob).*1 →
  merge b b h = Some (tt, h) ∧
  ∃ h' : heap,
    merge a b h = Some (tt, h') ∧ merge a b h' = Some (tt, h').
Proof.
  intros Hsa Hsb Hfree. split.
  - by apply (merge_noop h b b ob ob).
  - destruct (merge_run h a b oa ob Hsa Hsb Hfree) as (oa' & Hr & Hwf' & Hb' & He).
    exists (<[a := oa']> h). split; [done|].
    destruct Hsa as [Ha _]. pose proof Hsb as [_ Hwfb].
    apply (merge_noop _ a b oa' ob); [by eapply is_store_update|done..|].
    intros k v Hk. rewrite He, foldl_set_lookup, Hk; [done|].
    by apply entries_NoDup, Hwfb.
Qed.

Lemma merge_idempotent_witness :
  merge 1%nat 1%nat [store_x1; store_x2_y3] = Some (tt, [store_x1; store_x2_y3]) ∧
  ∃ h' : heap,
    merge 0%nat 1%nat [store_x1; store_x2_y3] = Some (tt, h') ∧
    merge 0%nat 1%nat h' = Some (tt, h').
Proof.
  apply (merge_idempotent [store_x1; store_x2_y3] 0%nat 1%nat store_x1 store_x2_y3).
  - split; [reflexivity|]. apply wf_store_decide; reflexivity.
  - split; [reflexivity|]. apply wf_store_decide; reflexivity.
  - repeat constructor; apply prefix_free_decide; reflexivity.
Defined.

(** ** What a method call leaves alone *)

Section frame.
Context (h0 : heap) (this : loc).
Implicit Types (h : heap) (o : obj) (key : jsstring) (v : value).

Lemma only_this_changed_update h o' :
  only_this_changed h0 this h → wf_store o' →
  only_this_changed h0 this (<[this := o']> h).
Proof.
  intros ([o [Ho Hwf]] & Hlen & Hframe) Hwf'. split_and!.
  - exists o'. split; [by eapply heap_lookup_update | done].
  - by rewrite length_insert.
  - intros l Hl. rewrite heap_lookup_update_ne by done. by apply Hframe.
Qed.

Lemma only_this_changed_ref h l :
  only_this_changed h0 this h → is_Some (h0 !! l) → is_Some (h !! l).
Proof.
  intros ([o [Ho Hwf]] & Hlen & Hframe) Hl.
  destruct (decide (l = this)) as [->|Hne]; [eauto|]. by rewrite Hframe.
Qed.

Lemma only_this_changed_this h :
  only_this_changed h0 this h → is_Some (h !! this).
Proof. intros ([o [Ho Hwf]] & _). eauto. Qed.

Lemma frame_setKeyValue key v :
  hoare (only_this_changed h0 this) (setKeyValue this key v)
    (λ _, only_this_changed h0 this).
Proof.
  intros h HJ. pose proof HJ as ([o [Ho Hwf]] & _).
  eexists tt, _. split; [by apply setKeyValue_run|].
  by apply only_this_changed_update, obj_setKeyValue_wf.
Qed.

Lemma frame_removeByKey key :
  hoare (only_this_changed h0 this) (removeByKey this key)
    (λ _, only_this_changed h0 this).
Proof.
  intros h HJ. pose proof HJ as ([o [Ho Hwf]] & _).
  eexists _, _. split; [by apply removeByKey_run|].
  by apply only_this_changed_update, obj_removeByKey_wf.
Qed.

Lemma frame_setObject (from : loc) :
  is_Some (h0 !! from) →
  hoare (only_this_changed h0 this) (setObject this from)
    (λ _, only_this_changed h0 this).
Proof.
  intros Hfrom. unfold setObject. apply hoare_forEachOwnProperties.
  - intros h HJ. by eapply only_this_changed_ref.
  - intros v key []. eapply hoare_bind; [by apply frame_setKeyValue|].
    intros []. by apply hoare_ret.
Qed.

Lemma frame_merge (hashMap : loc) :
  is_Some (h0 !! hashMap) →
  hoare (only_this_changed h0 this) (merge this hashMap)
    (λ _, only_this_changed h0 this).
Proof.
  intros Hfrom. unfold merge. apply hoare_each.
  - intros h HJ. by eapply only_this_changed_ref.
  - intros v key []. eapply hoare_bind; [by apply frame_setKeyValue|].
    intros []. by apply hoare_ret.
Qed.

Lemma frame_removeByKeyArray keyArray :
  hoare (only_this_changed h0 this) (removeByKeyArray this keyArray)
    (λ _, only_this_changed h0 this).
Proof.
  unfold removeByKeyArray. apply hoare_forEach.
  intros key data. eapply hoare_bind; [by apply frame_removeByKey|].
  intros d. by apply hoare_ret.
Qed.

Lemma frame_remove arguments :
  hoare (only_this_changed h0 this) (remove this arguments)
    (λ _, only_this_changed h0 this).
Proof.
  destruct arguments; cbn [remove].
  - eapply hoare_bind; [by apply frame_removeByKey|].
    intros d. by apply hoare_ret.
  - eapply hoare_bind; [by apply frame_removeByKeyArray|].
    intros d. by apply hoare_ret.
  - eapply hoare_bind; [by apply frame_removeByKeyArray|].
    intros d. by apply hoare_ret.
Qed.

Lemma frame_removeAll :
  hoare (only_this_changed h0 this) (removeAll this)
    (λ _, only_this_changed h0 this).
Proof.
  unfold removeAll. apply hoare_each.
  - intros h HJ. by eapply only_this_changed_this.
  - intros v key []. eapply hoare_bind; [by apply frame_remove|].
    intros d. by apply hoare_ret.
Qed.

Lemma frame_run_op (c : op) :
  target c = Some this →
  (∀ r, reads c = Some r → is_Some (h0 !! r)) →
  hoare (only_this_changed h0 this) (run_op c) (λ _, only_this_changed h0 this).
Proof.
  intros Ht Hreads.
  destruct c as [obj|this' [key v|obj]|this' obj|this' other
    |this' arguments|this' key|this' keyArray|this']; simplify_eq/=.
  - by apply frame_setKeyValue.
  - apply frame_setObject. by apply Hreads.
  - apply frame_setObject. by apply Hreads.
  - apply frame_merge. by apply Hreads.
  - eapply hoare_bind; [by apply frame_remove|]. intros d. by apply hoare_ret.
  - eapply hoare_bind; [by apply frame_removeByKey|]. intros d. by apply hoare_ret.
  - eapply hoare_bind; [by apply frame_removeByKeyArray|]. intros d.
    by apply hoare_ret.
  - by apply frame_removeAll.
Qed.
End frame.

Lemma only_this_changed_refl (h : heap) (this : loc) (o : obj) :
  is_store h this o → only_this_changed h this h.
Proof. intros [H Hwf]. split_and!; [by exists o|done..]. Qed.

(** X17. A method called on a store changes that store and nothing else.
    Each of [set], [setObject], [merge], [remove], [removeByKey],
    [removeByKeyArray] and [removeAll] runs on every store, given that
    the record or store it is handed exists; afterwards the store is
    still a store, the heap has as many objects, and every other object,
    the record or the store handed in included, is as it was. *)
Theorem method_changes_only_this (h : heap) (this : loc) (o : obj) (c : op) :
  is_store h this o →
  target c = Some this →
  (∀ r, reads c = Some r → is_Some (h !! r)) →
  ∃ (h' : heap) (o' : obj),
    run_op c h = Some (tt, h') ∧
    is_store h' this o' ∧
    length h' = length h ∧
    ∀ l, l ≠ this → h' !! l = h !! l.
Proof.
  intros Hs Ht Hreads.
  destruct (frame_run_op h this c Ht Hreads h (only_this_changed_refl _ _ _ Hs))
    as ([] & h' & Hr & ([o' [Ho' Hwf']] & Hlen & Hframe)).
  by exists h', o'.
Qed.

Lemma method_changes_only_this_witness :
  ∃ h' : heap,
    run_op (OpMerge 0%nat 1%nat) [store_x1; store_x2_y3] = Some (tt, h') ∧
    h' !! 1%nat = Some store_x2_y3.
Proof.
  destruct (method_changes_only_this [store_x1; store_x2_y3] 0%nat store_x1
              (OpMerge 0%nat 1%nat))
    as (h' & o' & Hr & _ & _ & Hframe).
  - split; [reflexivity|]. apply wf_store_decide; reflexivity.
  - reflexivity.
  - intros r [= <-]. by eexists.
  - exists h'. split; [done|]. by rewrite Hframe.
Defined.

Section program_frame.
Implicit Types (h : heap) (records n : nat) (c : op).

Lemma op_scoped_target records n c this :
  op_scoped records n c = true → target c = Some this →
  is_store_ref records n this = true.
Proof.
  destruct c as [obj|this' [key v|obj]|this' obj|this' other
    |this' arguments|this' key|this' keyArray|this']; intros Hc [= <-];
    simpl in Hc; try done; by apply andb_true_iff in Hc as [? ?].
Qed.

Lemma op_scoped_reads records n c r h :
  op_scoped records n c = true → stores_ok records n h →
  reads c = Some r → is_Some (h !! r).
Proof.
  intros Hc Hok.
  destruct c as [obj|this' [key v|obj]|this' obj|this' other
    |this' arguments|this' key|this' keyArray|this']; intros [= <-];
    simpl in Hc; apply andb_true_iff in Hc as [? ?];
    by eauto using stores_ok_ref, stores_ok_store_ref.
Qed.

Lemma HashMap_frame records n h (obj : option loc) :
  stores_ok records n h → op_scoped records n (OpNew obj) = true →
  ∃ h', HashMap obj h = Some (length h, h') ∧
        ∀ l, (l < length h)%nat → h' !! l = h !! l.
Proof.
  intros Hok Hobj. pose proof Hok as [Hlen _].
  assert (∀ (f : loc → M unit),
            (let* this := alloc [] in
             let* _ := put_prop this str_length (VNum 0) in
             let* _ := f this in ret this) h
            = (let* _ := f (length h) in ret (length h)) (h ++ [store_empty]))
    as Hnew.
  { intros f. rewrite bind_unfold. unfold alloc at 1.
    erewrite bind_run; [|apply put_prop_run; by apply list_lookup_middle].
    set (h1 := <[length h := _]> _).
    assert (h1 = h ++ [store_empty]) as ->
      by (subst h1; by rewrite insert_app_r_alt, Nat.sub_diag).
    done. }
  destruct obj as [obj|]; unfold HashMap.
  - rewrite (Hnew (λ this, setObject this obj)).
    destruct (frame_setObject (h ++ [store_empty]) (length h) obj)
      with (h := h ++ [store_empty])
      as ([] & h' & Hr & (_ & _ & Hframe)).
    + apply lookup_lt_is_Some. rewrite length_app. simpl in *.
      apply Nat.ltb_lt in Hobj. lia.
    + apply (only_this_changed_refl _ _ store_empty).
      split; [by apply list_lookup_middle | apply store_empty_wf].
    + exists h'. split; [by erewrite bind_run by done|].
      intros l Hl. rewrite Hframe by lia. by rewrite lookup_app_l.
  - rewrite (Hnew (λ _, ret tt)). eexists. split; [done|].
    intros l Hl. by rewrite lookup_app_l.
Qed.

Lemma run_op_frame records n h c :
  (records ≤ n)%nat → stores_ok records n h → op_scoped records n c = true →
  ∃ h', run_op c h = Some (tt, h') ∧
        ∀ l, (l < records)%nat → h' !! l = h !! l.
Proof.
  intros Hn Hok Hc. destruct (target c) as [this|] eqn:Ht.
  - pose proof (op_scoped_target _ _ _ _ Hc Ht) as Hthis.
    destruct (stores_ok_store records n h this Hok Hthis) as [o Hs].
    destruct (frame_run_op h this c Ht) with (h := h)
      as ([] & h' & Hr & (_ & _ & Hframe)).
    + intros r Hr. by eapply op_scoped_reads.
    + by eapply only_this_changed_refl.
    + exists h'. split; [done|]. intros l Hl. apply Hframe.
      apply andb_true_iff in Hthis as [Hge%Nat.leb_le _]. lia.
  - destruct c as [init| | | | | | |]; try done. cbn [run_op].
    destruct (HashMap_frame records n h init Hok Hc) as (h' & Hr & Hframe).
    exists h'. split; [by erewrite bind_run by done|].
    intros l Hl. apply Hframe. destruct Hok as [-> _]. lia.
Qed.

Lemma run_ops_frame records (ops : list op) : ∀ n h,
  (records ≤ n)%nat → stores_ok records n h → ops_scoped records n ops = true →
  ∃ h', run_ops ops h = Some (tt, h') ∧
        (length h ≤ length h')%nat ∧
        ∀ l, (l < records)%nat → h' !! l = h !! l.
Proof.
  induction ops as [|c ops IH]; intros n h Hn Hok Hops.
  - by exists h.
  - apply andb_true_iff in Hops as [Hc Hops].
    destruct (run_op_frame records n h c Hn Hok Hc) as (h1 & Hr1 & Hframe1).
    destruct (hoare_run_op records n c Hn Hc h Hok) as ([] & h1' & Hr1' & Hok1).
    assert (h1' = h1) as -> by congruence.
    assert (records ≤ match c with OpNew _ => S n | _ => n end)%nat as Hn1
      by (destruct c; lia).
    destruct (IH _ h1 Hn1 Hok1 Hops) as (h' & Hr & Hlen & Hframe).
    exists h'. split_and!.
    + cbn [run_ops]. by erewrite bind_run by done.
    + destruct Hok as [-> _], Hok1 as [Hlen1 _]. destruct c; lia.
    + intros l Hl. by rewrite Hframe, Hframe1.
Qed.
End program_frame.

(** X18. A program never changes the records it reads: after any
    well-scoped sequence of constructor calls and method calls, every
    object that was in the heap at the start is as it was. *)
Theorem program_leaves_records (records : heap) (ops : list op) :
  ops_scoped (length records) (length records) ops = true →
  ∃ h : heap,
    run_ops ops records = Some (tt, h) ∧
    take (length records) h = records.
Proof.
  intros Hops.
  destruct (run_ops_frame (length records) ops (length records) records)
    as (h & Hr & Hlen & Hframe); [done| |done|].
  { split; [done|]. intros l o Hl Ho. apply lookup_lt_Some in Ho. lia. }
  exists h. split; [done|]. apply list_eq. intros l.
  destruct (decide (l < length records)%nat) as [Hl|Hl].
  - rewrite lookup_take_lt by done. by apply Hframe.
  - rewrite lookup_take_ge by lia. symmetry. apply lookup_ge_None. lia.
Qed.

Lemma program_leaves_records_witness :
  ∃ h : heap,
    run_ops sample_program [record_a1_b2] = Some (tt, h) ∧
    take 1 h = [record_a1_b2].
Proof.
  apply (program_leaves_records [record_a1_b2] sample_program). reflexivity.
Defined.

(** X19. A key that is absent: [get] returns [undefined], [remove]
    returns [null] in its scalar form and [[null]] in its array form, the
    store has no property under the encoded key, and none of [has], [get]
    and [remove] changes the heap. *)
Theorem absent_key (h : heap) (this : loc) (o : obj) (k : jsstring) :
  is_store h this o →
  has this k h = Some (false, h) →
  get this k h = Some (VUndefined, h) ∧
  remove this (RemoveKey k) h = Some (Removed VNull, h) ∧
  remove this (RemoveArray [k]) h = Some (RemovedArray [VNull], h) ∧
  obj_lookup o (encodeKey k) = None.
Proof.
  intros Hs Hhas. pose proof Hs as [H Hwf].
  erewrite has_run in Hhas by done. injection Hhas as Hhas.
  apply bool_decide_eq_false_1, eq_None_not_Some in Hhas.
  assert (obj_removeByKey o k = o) as Ho
    by (unfold obj_removeByKey; by rewrite Hhas).
  assert (data_removeByKey o k = VNull) as Hdata
    by (unfold data_removeByKey; by rewrite Hhas).
  split_and!.
  - erewrite get_run by done. by rewrite Hhas.
  - erewrite remove_key_run by done. by rewrite Ho, Hdata, heap_update_same.
  - unfold remove, removeByKeyArray.
    erewrite bind_run by by apply forEach_removeByKey_run.
    cbn. by rewrite Ho, Hdata, heap_update_same.
  - done.
Qed.

Lemma absent_key_witness :
  get 0%nat key_x [store_a1_b2] = Some (VUndefined, [store_a1_b2]) ∧
  remove 0%nat (RemoveKey key_x) [store_a1_b2]
    = Some (Removed VNull, [store_a1_b2]).
Proof.
  destruct (absent_key [store_a1_b2] 0%nat store_a1_b2 key_x)
    as (Hget & Hrem & _).
  - split; [reflexivity|]. apply wf_store_decide; reflexivity.
  - reflexivity.
  - by split.
Defined.
